(** * Verification of the chunking core of [assistant_api/vector_store.py]

    The development embeds the methods of the Python class [VectorStore]
    as Rocq functions and proves the properties listed in the repository's
    specification about them.

    - Python [str] values are lists of Unicode code points ([N]).
    - Python [int] values are [Z]; [len] is [Z.of_nat (length _)].
    - The [for] loops are folds of their body over the list they iterate.
    - The vector index (Qdrant), the embedding provider (OpenAI), the file
      system and the random source are external collaborators: their
      state and their behaviour are fields of an explicit world that the
      methods of the gateway read and write. *)

From Stdlib Require Import String Ascii.
From Stdlib Require Import List ZArith NArith Lia Bool Arith.
From Equations Require Import Equations.
From Equations.Prop Require Import Logic.
Import ListNotations.

Set Default Goal Selector "!".

(** ** Python strings *)

Module PyStr.

Definition char := N.
Definition str := list char.

(** String literals of the source are written with [lit]. *)
Definition lit (s : string) : str :=
  List.map N_of_ascii (list_ascii_of_string s).

(** ['\n'] *)
Definition NL : char := 10%N.

(** [len(s)] *)
Definition len (s : str) : Z := Z.of_nat (length s).

(** Truth value of a string: [if s:] holds for the non-empty ones. *)
Definition truthy {A} (s : list A) : bool :=
  match s with [] => false | _ :: _ => true end.

(** [str.isspace] on one code point, as CPython's [_PyUnicode_IsWhitespace];
    the regular expression class [\s] on [str] patterns is the same set. *)
Definition is_space (c : char) : bool :=
  ((9 <=? c) && (c <=? 13) || (28 <=? c) && (c <=? 32)
   || (c =? 133) || (c =? 160) || (c =? 5760)
   || (8192 <=? c) && (c <=? 8202)
   || (c =? 8232) || (c =? 8233) || (c =? 8239) || (c =? 8287)
   || (c =? 12288))%N.

Fixpoint take_while {A} (p : A -> bool) (s : list A) : list A :=
  match s with
  | [] => []
  | c :: s' => if p c then c :: take_while p s' else []
  end.

Fixpoint drop_while {A} (p : A -> bool) (s : list A) : list A :=
  match s with
  | [] => []
  | c :: s' => if p c then drop_while p s' else s
  end.

(** [s.lstrip()], [s.rstrip()], [s.strip()] *)
Definition lstrip (s : str) : str := drop_while is_space s.
Definition rstrip (s : str) : str := rev (drop_while is_space (rev s)).
Definition strip (s : str) : str := rstrip (lstrip s).

(** [s.startswith(sub)] *)
Fixpoint startswith (s sub : str) : bool :=
  match sub, s with
  | [], _ => true
  | _ :: _, [] => false
  | d :: sub', c :: s' => (c =? d)%N && startswith s' sub'
  end.

(** [s.find(sub)]: index of the first occurrence of [sub], [-1] if there
    is none. [find_from s sub i] scans [s], whose first character has
    index [i]. *)
Fixpoint find_from (s sub : str) (i : Z) : Z :=
  if startswith s sub then i
  else match s with
       | [] => (-1)%Z
       | _ :: s' => find_from s' sub (i + 1)%Z
       end.

Definition find (s sub : str) : Z := find_from s sub 0%Z.

(** [s[i:]] for an arbitrary integer [i]: a negative index counts from
    the end and is clipped at the start of the string. *)
Definition slice_from (s : str) (i : Z) : str :=
  if (i <? 0)%Z then skipn (Z.to_nat (len s + i)) s
  else skipn (Z.to_nat i) s.

(** [text.split('\n\n')] *)
Fixpoint split_nlnl_aux (acc : str) (s : str) : list str :=
  match s with
  | [] => [rev acc]
  | c :: s' =>
      match s' with
      | d :: s'' =>
          if ((c =? NL) && (d =? NL))%N
          then rev acc :: split_nlnl_aux [] s''
          else split_nlnl_aux (c :: acc) s'
      | [] => [rev (c :: acc)]
      end
  end.

Definition split_nlnl (s : str) : list str := split_nlnl_aux [] s.

End PyStr.
Import PyStr.

(** ** The chunking methods of [VectorStore] *)

(** *** [_get_overlap_text] *)

(** [sentence_starts = ['. ', '! ', '? ', '\n']] *)
Definition sentence_starts : list str :=
  [lit ". "; lit "! "; lit "? "; [NL]].

(** One iteration of [for delimiter in sentence_starts]. *)
Definition overlap_step (overlap_candidate : str) (best_start : Z)
    (delimiter : str) : Z :=
  let pos := find overlap_candidate delimiter in
  if (negb (pos =? -1) && (pos >? best_start))%Z
  then (pos + len delimiter)%Z
  else best_start.

Definition _get_overlap_text (text : str) (overlap_size : Z) : str :=
  if (len text <=? overlap_size)%Z then text
  else
    let overlap_candidate := slice_from text (- overlap_size) in
    let best_start :=
      fold_left (overlap_step overlap_candidate) sentence_starts 0%Z in
    if (best_start >? 0)%Z
    then strip (slice_from overlap_candidate best_start)
    else strip overlap_candidate.

(** *** [re.split(r'([.!?]+\s+)', paragraph)] *)

(** The class [[.!?]]. *)
Definition is_punct (c : char) : bool :=
  ((c =? 46) || (c =? 33) || (c =? 63))%N.

(** The pattern [[.!?]+\s+] anchored at the head of [s]. The first [+] is
    greedy: the matcher starts from the longest run of punctuation and
    backtracks to shorter ones ([k], [k-1], ..., [1]) until at least one
    whitespace character follows; the second [+] then takes the longest
    run of whitespace. The result is the length of the match. *)
Fixpoint match_backtrack (s : str) (k : nat) : option nat :=
  match k with
  | O => None
  | S k' =>
      let m := length (take_while is_space (skipn k s)) in
      if (0 <? m)%nat then Some (k + m)%nat else match_backtrack s k'
  end.

Definition match_delim (s : str) : option nat :=
  match_backtrack s (length (take_while is_punct s)).

(** [pattern.search]: the leftmost position at which the pattern matches,
    with the length of the match there. *)
Fixpoint re_search (s : str) : option (nat * nat) :=
  match match_delim s with
  | Some n => Some (O, n)
  | None =>
      match s with
      | [] => None
      | _ :: s' =>
          match re_search s' with
          | Some (i, n) => Some (S i, n)
          | None => None
          end
      end
  end.

Lemma take_while_length {A} (p : A -> bool) (t : list A) :
  (length (take_while p t) <= length t)%nat.
Proof.
  induction t as [|c t IHt]; simpl; [lia|]. destruct (p c); simpl; lia.
Qed.

Lemma match_backtrack_bounds s k n :
  (k <= length s)%nat -> match_backtrack s k = Some n ->
  (0 < n <= length s)%nat.
Proof.
  revert n. induction k as [|k IH]; intros n Hk H; [discriminate|].
  cbn [match_backtrack] in H.
  pose proof (take_while_length is_space (skipn (S k) s)) as L.
  rewrite length_skipn in L.
  set (m := length (take_while is_space (skipn (S k) s))) in *.
  destruct (0 <? m)%nat eqn:E.
  - assert (n = (S k + m)%nat) by congruence. lia.
  - apply IH; [lia | exact H].
Qed.

Lemma match_delim_bounds s n :
  match_delim s = Some n -> (0 < n <= length s)%nat.
Proof.
  apply match_backtrack_bounds, take_while_length.
Qed.

Lemma re_search_bounds s i n :
  re_search s = Some (i, n) -> (0 < n /\ i + n <= length s)%nat.
Proof.
  revert i. induction s as [|c s IH]; intros i H; cbn [re_search] in H.
  - destruct (match_delim []) eqn:E; [|discriminate].
    apply match_delim_bounds in E.
    assert (i = O /\ n = n0) as [-> ->] by (split; congruence). lia.
  - destruct (match_delim (c :: s)) eqn:E.
    + apply match_delim_bounds in E.
      assert (i = O /\ n = n0) as [-> ->] by (split; congruence). lia.
    + destruct (re_search s) as [[j m]|]; [|discriminate].
      assert (i = S j /\ n = m) as [-> ->] by (split; congruence).
      specialize (IH j eq_refl). cbn [length]. lia.
Qed.

(** [re.split] with one capturing group: the text before each match, then
    the match itself, and after the last match the rest of the string.
    The pattern never matches the empty string, so each search resumes
    where the previous match ended. *)
Equations? re_split (s : str) : list str by wf (length s) lt :=
  re_split s with inspect (re_search s) := {
    | exist _ (Some (i, n)) e =>
        firstn i s :: firstn n (skipn i s) :: re_split (skipn (i + n) s);
    | exist _ None _ => [s] }.
Proof.
  apply re_search_bounds in e. rewrite length_skipn. lia.
Qed.

(** *** [_split_long_paragraph] *)

(** [range(0, stop, 2)] *)
Definition range2 (stop : Z) : list Z :=
  List.map (fun k => (2 * Z.of_nat k)%Z) (seq 0 (Z.to_nat ((stop + 1) / 2))).

(** [l[i]] for an index [i >= 0] within bounds. *)
Definition item (l : list str) (i : Z) : str := nth (Z.to_nat i) l [].

(** One iteration of the loop that re-attaches the delimiters. *)
Definition attach_step (sentences : list str) (full_sentences : list str)
    (i : Z) : list str :=
  if (i + 1 <? Z.of_nat (length sentences))%Z
  then full_sentences ++ [item sentences i ++ item sentences (i + 1)]
  else full_sentences ++ [item sentences i].

Definition attach_delimiters (sentences : list str) : list str :=
  let full_sentences :=
    fold_left (attach_step sentences)
              (range2 (Z.of_nat (length sentences) - 1)) [] in
  if (Z.of_nat (length sentences) mod 2 =? 1)%Z
  then full_sentences ++ [last sentences []]
  else full_sentences.

(** The sentence-splitting step, lines 204-216 of the source. *)
Definition split_sentences (paragraph : str) : list str :=
  attach_delimiters (re_split paragraph).

(** State of the packing loops: [(chunks, current_chunk)]. *)
Definition pack_state : Type := list str * str.

(** One iteration of [for sentence in full_sentences]. *)
Definition sentence_step (chunk_size overlap : Z) (st : pack_state)
    (sentence : str) : pack_state :=
  let '(chunks, current_chunk) := st in
  let sentence := strip sentence in
  if negb (truthy sentence) then st
  else if (len current_chunk + len sentence + 1 <=? chunk_size)%Z then
    if truthy current_chunk
    then (chunks, current_chunk ++ lit " " ++ sentence)
    else (chunks, sentence)
  else
    if truthy current_chunk then
      let overlap_text := _get_overlap_text current_chunk overlap in
      (chunks ++ [current_chunk],
       if truthy overlap_text then overlap_text ++ lit " " ++ sentence
       else sentence)
    else (chunks, sentence).

(** [if current_chunk: chunks.append(current_chunk)] *)
Definition flush (st : pack_state) : list str :=
  let '(chunks, current_chunk) := st in
  if truthy current_chunk then chunks ++ [current_chunk] else chunks.

Definition _split_long_paragraph (paragraph : str) (chunk_size overlap : Z)
    : list str :=
  flush (fold_left (sentence_step chunk_size overlap)
                   (split_sentences paragraph) ([], [])).

(** *** [_chunk_text] *)

(** One iteration of [for paragraph in paragraphs]. *)
Definition paragraph_step (chunk_size overlap : Z) (st : pack_state)
    (paragraph : str) : pack_state :=
  let '(chunks, current_chunk) := st in
  let paragraph := strip paragraph in
  if negb (truthy paragraph) then st
  else if (len current_chunk + len paragraph + 2 <=? chunk_size)%Z then
    if truthy current_chunk
    then (chunks, current_chunk ++ [NL; NL] ++ paragraph)
    else (chunks, paragraph)
  else if truthy current_chunk then
    let overlap_text := _get_overlap_text current_chunk overlap in
    (chunks ++ [current_chunk],
     if truthy overlap_text then overlap_text ++ [NL; NL] ++ paragraph
     else paragraph)
  else
    if (len paragraph >? chunk_size)%Z then
      let sentence_chunks :=
        _split_long_paragraph paragraph chunk_size overlap in
      if truthy sentence_chunks
      then (chunks ++ removelast sentence_chunks, last sentence_chunks [])
      else st
    else (chunks, paragraph).

(** The chunks as assembled by the loop and the final flush, before the
    post-processing pass. *)
Definition assemble_chunks (text : str) (chunk_size overlap : Z) : list str :=
  flush (fold_left (paragraph_step chunk_size overlap)
                   (split_nlnl text) ([], [])).

(** [[chunk for chunk in chunks if len(chunk) >= 50]] *)
Definition long_enough (chunk : str) : bool := (len chunk >=? 50)%Z.

Definition _chunk_text (text : str) (chunk_size overlap : Z) : list str :=
  filter long_enough (assemble_chunks text chunk_size overlap).

(** ** The embedding and index gateway *)

Module Gateway.

(** Exceptions, by class and origin: [FileNotFoundError] with its
    message, any other failure of [open]/[read] on an existing path, a
    failure of the Qdrant client, a failure of the OpenAI client, and the
    [ValueError] with which the Qdrant client refuses a request. All are
    instances of Python's [Exception]. *)
Inductive exn : Type :=
| FileNotFoundError (message : str)
| ReadError (description : str)
| IndexFailure (description : str)
| ProviderFailure (description : str)
| ValueError (description : str).

(** [str(e)] *)
Definition describe (e : exn) : str :=
  match e with
  | FileNotFoundError d | ReadError d | IndexFailure d | ProviderFailure d
  | ValueError d => d
  end.

(** The message of [raise FileNotFoundError(...)] in [load_documents]: the
    path between the code points of the two Russian phrases of the
    source. *)
Definition not_found_message (file_path : str) : str :=
  [1060; 1072; 1081; 1083; 32]%N ++ file_path
    ++ [32; 1085; 1077; 32; 1085; 1072; 1081; 1076; 1077; 1085]%N.

(** What a path denotes in the file system. *)
Inductive file_entry : Type :=
| Absent
| Readable (text : str)
| Unreadable (description : str).

(** Lines written by [print]. *)
Inductive message : Type :=
| TextSplit (n : nat)
| AlreadyLoaded
| Progress (done total : Z)
| Loaded (n : nat) (collection_name : str).

Section WithFloat.

Context {float : Type}.

(** [PointStruct(id, vector, payload={"text": ..., "chunk_id": ...})] *)
Record PointStruct : Type := mkPoint {
  point_id : str;
  point_vector : list float;
  payload_text : str;
  payload_chunk_id : Z
}.

(** The world outside the process: the file system, the collections of
    the vector index and whether the index can be reached, the behaviour
    of the embedding provider (which may depend on the requests it has
    served; a failure comes with its description) and of the random
    source behind [uuid.uuid4], and the traces of what the program did to
    them. *)
Record World : Type := mkWorld {
  files : str -> file_entry;
  collections : list (str * list PointStruct);
  index_fault : option str;
  upsert_fault : option str;
  provider : list str -> str -> str + list float;
  requests : list str;
  uuid_source : nat -> str;
  uuids_drawn : nat;
  stdout : list message
}.

(** The attributes of a [VectorStore] object set by [__init__]. *)
Record VectorStore : Type := mkStore {
  collection_name : str;
  persist_directory : str;
  vector_size : Z
}.

(** Computations that read and write the world and may raise. *)
Definition M (A : Type) : Type := World -> (exn + A) * World.

Definition ret {A} (a : A) : M A := fun w => (inr a, w).

Definition raise {A} (e : exn) : M A := fun w => (inl e, w).

Definition bind {A B} (m : M A) (k : A -> M B) : M B :=
  fun w =>
    match m w with
    | (inl e, w') => (inl e, w')
    | (inr a, w') => k a w'
    end.

(** [try: body except Exception as e: handler(e)] *)
Definition try_except {A} (body : M A) (handler : exn -> M A) : M A :=
  fun w =>
    match body w with
    | (inl e, w') => handler e w'
    | (inr a, w') => (inr a, w')
    end.

End WithFloat.

Arguments PointStruct : clear implicits.
Arguments World : clear implicits.
Arguments M : clear implicits.

Declare Scope gateway_scope.
Delimit Scope gateway_scope with gw.
Notation "x <- m ;; k" := (bind m (fun x => k))
  (at level 61, m at next level, right associativity) : gateway_scope.
Notation "m ;;; k" := (bind m (fun _ => k))
  (at level 61, right associativity) : gateway_scope.

Section Operations.

Context {float : Type}.
Local Open Scope gateway_scope.
Local Abbreviation M := (M float).
Local Abbreviation World := (World float).
Local Abbreviation PointStruct := (PointStruct float).

Definition str_eqb (a b : str) : bool :=
  if list_eq_dec N.eq_dec a b then true else false.

Fixpoint lookup_collection (name : str)
    (cs : list (str * list PointStruct)) : option (list PointStruct) :=
  match cs with
  | [] => None
  | (n, pts) :: cs' =>
      if str_eqb n name then Some pts else lookup_collection name cs'
  end.

Fixpoint store_collection (name : str) (pts : list PointStruct)
    (cs : list (str * list PointStruct)) : list (str * list PointStruct) :=
  match cs with
  | [] => [(name, pts)]
  | (n, old) :: cs' =>
      if str_eqb n name then (n, pts) :: cs'
      else (n, old) :: store_collection name pts cs'
  end.

(** [print(...)] *)
Definition print (m : message) : M unit :=
  fun w => (inr tt,
            mkWorld (files w) (collections w) (index_fault w) (upsert_fault w)
                    (provider w) (requests w) (uuid_source w) (uuids_drawn w)
                    (stdout w ++ [m])).

(** [os.path.exists(file_path)] *)
Definition os_path_exists (file_path : str) : M bool :=
  fun w => (inr (match files w file_path with Absent => false | _ => true end),
            w).

(** [with open(file_path, 'r', encoding='utf-8') as f: text = f.read()] *)
Definition read_text (file_path : str) : M str :=
  fun w =>
    match files w file_path with
    | Readable text => (inr text, w)
    | Unreadable d => (inl (ReadError d), w)
    | Absent =>
        (inl (FileNotFoundError
                (lit "[Errno 2] No such file or directory: '" ++ file_path
                   ++ lit "'")), w)
    end.

(** [self.client.get_collection(name).points_count] *)
Definition get_collection_points_count (name : str) : M Z :=
  fun w =>
    match index_fault w with
    | Some d => (inl (IndexFailure d), w)
    | None =>
        match lookup_collection name (collections w) with
        | Some pts => (inr (Z.of_nat (length pts)), w)
        | None => (inl (IndexFailure (lit "Collection not found")), w)
        end
    end.

(** Upsert in one collection: a point replaces the stored point with the
    same identifier, or is added. *)
Fixpoint upsert_point (p : PointStruct) (pts : list PointStruct)
    : list PointStruct :=
  match pts with
  | [] => [p]
  | q :: pts' =>
      if str_eqb (point_id q) (point_id p) then p :: pts'
      else q :: upsert_point p pts'
  end.

(** [self.client.upsert(collection_name=name, points=points)]: the client
    refuses an empty list of points with
    [ValueError('Empty update request')] and stores nothing. *)
Definition client_upsert (name : str) (points : list PointStruct) : M unit :=
  fun w =>
    match points, index_fault w, upsert_fault w with
    | [], _, _ => (inl (ValueError (lit "Empty update request")), w)
    | _ :: _, Some d, _ | _ :: _, None, Some d => (inl (IndexFailure d), w)
    | _ :: _, None, None =>
        match lookup_collection name (collections w) with
        | None => (inl (IndexFailure (lit "Collection not found")), w)
        | Some pts =>
            (inr tt,
             mkWorld (files w)
                     (store_collection name
                        (fold_left (fun acc p => upsert_point p acc) points pts)
                        (collections w))
                     (index_fault w) (upsert_fault w) (provider w)
                     (requests w) (uuid_source w) (uuids_drawn w) (stdout w))
        end
    end.

(** [_create_embedding]: one request to the embedding provider. *)
Definition _create_embedding (text : str) : M (list float) :=
  fun w =>
    (match provider w (requests w) text with
     | inl description => inl (ProviderFailure description)
     | inr embedding => inr embedding
     end,
     mkWorld (files w) (collections w) (index_fault w) (upsert_fault w)
             (provider w) (requests w ++ [text]) (uuid_source w)
             (uuids_drawn w) (stdout w)).

(** [str(uuid.uuid4())] *)
Definition uuid4 : M str :=
  fun w =>
    (inr (uuid_source w (uuids_drawn w)),
     mkWorld (files w) (collections w) (index_fault w) (upsert_fault w)
             (provider w) (requests w) (uuid_source w)
             (S (uuids_drawn w)) (stdout w)).

(** [enumerate(chunks)], counting from [start]. *)
Fixpoint enumerate_from (start : Z) (chunks : list str) : list (Z * str) :=
  match chunks with
  | [] => []
  | c :: cs => (start, c) :: enumerate_from (start + 1)%Z cs
  end.

(** The loop [for i, chunk in enumerate(chunks)] of [load_documents]. *)
Fixpoint embed_chunks (total : Z) (todo : list (Z * str))
    (points : list PointStruct) : M (list PointStruct) :=
  match todo with
  | [] => ret points
  | (i, chunk) :: rest =>
      embedding <- _create_embedding chunk ;;
      id <- uuid4 ;;
      let points := points ++ [mkPoint id embedding chunk i] in
      (if ((i + 1) mod 10 =? 0)%Z then print (Progress (i + 1) total)
       else ret tt) ;;;
      embed_chunks total rest points
  end.

Definition load_documents (self : VectorStore) (file_path : str) : M unit :=
  found <- os_path_exists file_path ;;
  if negb found then raise (FileNotFoundError (not_found_message file_path))
  else
    text <- read_text file_path ;;
    let chunks := _chunk_text text 500 100 in
    print (TextSplit (length chunks)) ;;;
    points_count <- get_collection_points_count (collection_name self) ;;
    if (points_count >? 0)%Z then print AlreadyLoaded
    else
      points <- embed_chunks (Z.of_nat (length chunks))
                             (enumerate_from 0 chunks) [] ;;
      client_upsert (collection_name self) points ;;;
      print (Loaded (length chunks) (collection_name self)).

(** Values stored in the dictionary that [get_collection_stats] returns. *)
Inductive value : Type :=
| VStr (s : str)
| VInt (z : Z).

Definition dict : Type := list (string * value).

Fixpoint dict_get (d : dict) (key : string) : option value :=
  match d with
  | [] => None
  | (k, v) :: d' => if String.eqb k key then Some v else dict_get d' key
  end.

Definition get_collection_stats (self : VectorStore) : M dict :=
  try_except
    (points_count <- get_collection_points_count (collection_name self) ;;
     ret [("name"%string, VStr (collection_name self));
          ("count"%string, VInt points_count);
          ("persist_directory"%string, VStr (persist_directory self));
          ("vector_size"%string, VInt (vector_size self))])
    (fun e =>
       ret [("name"%string, VStr (collection_name self));
            ("count"%string, VInt 0);
            ("persist_directory"%string, VStr (persist_directory self));
            ("error"%string, VStr (describe e))]).

End Operations.

End Gateway.

(** ** Retrieval: [search] *)

Module Retrieval.

Import Gateway.

(** An exception of [search]: one raised by a collaborator, or the
    [KeyError] of [result.payload['text']]. *)
Inductive search_exn : Type :=
| Raised (e : exn)
| KeyError (key : string).

Section WithFloat.

Context {float : Type}.

(** A point as the index returns it: identifier, similarity score and
    payload. *)
Record ScoredPoint : Type := mkScored {
  scored_id : str;
  scored_score : float;
  scored_payload : dict
}.

(** One entry of the list that [search] returns: the dictionary with the
    keys ['id'], ['text'], ['score'] and ['chunk_id']. *)
Record document : Type := mkDocument {
  doc_id : str;
  doc_text : value;
  doc_score : float;
  doc_chunk_id : value
}.

(** The payload that [load_documents] gives to a point:
    [{"text": chunk, "chunk_id": i}]. *)
Definition payload_of (p : PointStruct float) : dict :=
  [("text"%string, VStr (payload_text p));
   ("chunk_id"%string, VInt (payload_chunk_id p))].

(** [payload.get('chunk_id', 0)] *)
Definition get_chunk_id (payload : dict) : value :=
  match dict_get payload "chunk_id" with
  | Some v => v
  | None => VInt 0
  end.

(** The loop [for result in search_results]. *)
Fixpoint format_results (results : list ScoredPoint)
    (documents : list document) : search_exn + list document :=
  match results with
  | [] => inr documents
  | result :: rest =>
      match dict_get (scored_payload result) "text" with
      | None => inl (KeyError "text")
      | Some text =>
          format_results rest
            (documents ++ [mkDocument (scored_id result) text
                             (scored_score result)
                             (get_chunk_id (scored_payload result))])
      end
  end.

(** The method [client.query_points(collection_name, query, limit)] of the
    index, which reads the world and answers with a failure or with the
    points it ranked. *)
Variable query_points :
  World float -> str -> list float -> Z -> str + list ScoredPoint.

Definition search (self : VectorStore) (query : str) (top_k : Z)
    (w : World float) : (search_exn + list document) * World float :=
  match _create_embedding query w with
  | (inl e, w') => (inl (Raised e), w')
  | (inr query_embedding, w') =>
      match query_points w' (collection_name self) query_embedding top_k with
      | inl d => (inl (Raised (IndexFailure d)), w')
      | inr search_results => (format_results search_results [], w')
      end
  end.

End WithFloat.

Arguments ScoredPoint : clear implicits.
Arguments document : clear implicits.

End Retrieval.

(** ** The life of a [VectorStore]: construction and release *)

Module Lifecycle.

Import Gateway.

(** [qdrant_client.models.Distance] and [VectorParams]. *)
Inductive Distance : Type := COSINE | EUCLID | DOT | MANHATTAN.

Record VectorParams : Type := mkParams {
  params_size : Z;
  params_distance : Distance
}.

(** The lines that the methods of this part print. *)
Inductive notice : Type :=
| ConnectionClosed
| CloseFailed (description : str)
| CollectionLoaded (name : str) (points_count : Z)
| CollectionCreated (name : str)
| CollectionError (description : str).

Section WithFloat.

Context {float : Type}.

(** The process around the world of the gateway: the vector parameters
    of the collections, the lines printed by the methods of this part,
    what goes wrong when the process connects to the index, builds the
    OpenAI client or creates a collection, and how the [n]-th call of
    [client.close()] ends. *)
Record Process : Type := mkProcess {
  world : World float;
  vector_configs : list (str * VectorParams);
  notices : list notice;
  connect_fault : option str;
  openai_fault : option str;
  create_fault : option str;
  close_fault : nat -> option str;
  close_calls : nat
}.

Definition with_world (s : Process) (w : World float) : Process :=
  mkProcess w (vector_configs s) (notices s) (connect_fault s)
            (openai_fault s) (create_fault s) (close_fault s) (close_calls s).

(** Computations on the process that may raise. *)
Definition P (A : Type) : Type := Process -> (exn + A) * Process.

Definition pret {A} (a : A) : P A := fun s => (inr a, s).

Definition praise {A} (e : exn) : P A := fun s => (inl e, s).

Definition pbind {A B} (m : P A) (k : A -> P B) : P B :=
  fun s =>
    match m s with
    | (inl e, s') => (inl e, s')
    | (inr a, s') => k a s'
    end.

(** [try: body except Exception as e: handler(e)] *)
Definition ptry {A} (body : P A) (handler : exn -> P A) : P A :=
  fun s =>
    match body s with
    | (inl e, s') => handler e s'
    | (inr a, s') => (inr a, s')
    end.

(** A method of the gateway run inside the process. *)
Definition lift {A} (m : M float A) : P A :=
  fun s =>
    match m (world s) with
    | (r, w') => (r, with_world s w')
    end.

(** [print(...)] *)
Definition say (n : notice) : P unit :=
  fun s =>
    (inr tt,
     mkProcess (world s) (vector_configs s) (notices s ++ [n])
               (connect_fault s) (openai_fault s) (create_fault s)
               (close_fault s) (close_calls s)).

(** [[col.name for col in self.client.get_collections().collections]] *)
Definition get_collection_names : P (list str) :=
  fun s =>
    match index_fault (world s) with
    | Some d => (inl (IndexFailure d), s)
    | None => (inr (List.map fst (collections (world s))), s)
    end.

(** [name in collection_names] *)
Definition name_in (name : str) (names : list str) : bool :=
  existsb (fun n => str_eqb n name) names.

(** [self.client.create_collection(collection_name, vectors_config)]: a
    new, empty collection with the given parameters; the index refuses a
    name it already has. *)
Definition create_collection (name : str) (params : VectorParams) : P unit :=
  fun s =>
    match index_fault (world s), create_fault s with
    | Some d, _ | None, Some d => (inl (IndexFailure d), s)
    | None, None =>
        if name_in name (List.map fst (collections (world s)))
        then (inl (IndexFailure (lit "Collection already exists")), s)
        else
          (inr tt,
           mkProcess
             (mkWorld (files (world s))
                      (collections (world s) ++ [(name, [])])
                      (index_fault (world s)) (upsert_fault (world s))
                      (provider (world s)) (requests (world s))
                      (uuid_source (world s)) (uuids_drawn (world s))
                      (stdout (world s)))
             (vector_configs s ++ [(name, params)]) (notices s)
             (connect_fault s) (openai_fault s) (create_fault s)
             (close_fault s) (close_calls s))
    end.

Definition _ensure_collection_exists (self : VectorStore) : P unit :=
  ptry
    (pbind get_collection_names (fun collection_names =>
       if name_in (collection_name self) collection_names
       then
         pbind (lift (get_collection_points_count (collection_name self)))
               (fun points_count =>
                  say (CollectionLoaded (collection_name self) points_count))
       else
         pbind (create_collection (collection_name self)
                  (mkParams (vector_size self) COSINE))
               (fun _ => say (CollectionCreated (collection_name self)))))
    (fun e => pbind (say (CollectionError (describe e)))
                    (fun _ => praise e)).

(** [QdrantClient(path=persist_directory)] *)
Definition connect (persist_directory : str) : P unit :=
  fun s =>
    match connect_fault s with
    | Some d => (inl (IndexFailure d), s)
    | None => (inr tt, s)
    end.

(** [OpenAI(api_key=os.getenv("OPENAI_API_KEY"))] *)
Definition make_openai_client : P unit :=
  fun s =>
    match openai_fault s with
    | Some d => (inl (ProviderFailure d), s)
    | None => (inr tt, s)
    end.

(** [VectorStore(collection_name, persist_directory)] *)
Definition __init__ (name persist_dir : str) : P VectorStore :=
  pbind (connect persist_dir) (fun _ =>
  pbind make_openai_client (fun _ =>
  let self := mkStore name persist_dir 1536 in
  pbind (_ensure_collection_exists self) (fun _ =>
  pret self))).

(** [self.client.close()] *)
Definition client_close : P unit :=
  fun s =>
    let s' :=
      mkProcess (world s) (vector_configs s) (notices s) (connect_fault s)
                (openai_fault s) (create_fault s) (close_fault s)
                (S (close_calls s)) in
    match close_fault s (close_calls s) with
    | Some d => (inl (IndexFailure d), s')
    | None => (inr tt, s')
    end.

(** [close]; [has_client] is the test
    [hasattr(self, 'client') and self.client], which fails on an object
    whose constructor raised before the client was assigned. *)
Definition close (has_client : bool) : P unit :=
  if has_client
  then ptry (pbind client_close (fun _ => say ConnectionClosed))
            (fun e => say (CloseFailed (describe e)))
  else pret tt.

(** [__enter__] returns the object; [__exit__] closes it and returns
    [None]; [__del__] closes it. *)
Definition __enter__ (self : VectorStore) : P VectorStore := pret self.

Definition __exit__ (has_client : bool) (raised : option exn) : P bool :=
  pbind (close has_client) (fun _ => pret false).

Definition __del__ (has_client : bool) : P unit := close has_client.

(** [with manager as v: body]: the body runs on what [__enter__] returns;
    [__exit__] runs whether the body raised or not; an exception of the
    body is raised again unless [__exit__] returns a true value. *)
Definition with_statement (self : VectorStore) (has_client : bool)
    (body : VectorStore -> P unit) : P unit :=
  pbind (__enter__ self) (fun v =>
  fun s =>
    match body v s with
    | (inr _, s1) =>
        match __exit__ has_client None s1 with
        | (inl e, s2) => (inl e, s2)
        | (inr _, s2) => (inr tt, s2)
        end
    | (inl e, s1) =>
        match __exit__ has_client (Some e) s1 with
        | (inl e', s2) => (inl e', s2)
        | (inr suppress, s2) =>
            if suppress then (inr tt, s2) else (inl e, s2)
        end
    end).

End WithFloat.

Arguments Process : clear implicits.
Arguments P : clear implicits.

End Lifecycle.

(** * Vocabulary of the properties *)

Import Gateway.
Local Open Scope gateway_scope.

(** ** Strings *)

(** [t] is a suffix of [s]; [t] occurs in [s] as a contiguous substring. *)
Definition is_suffix (t s : str) : Prop := exists pre, s = pre ++ t.

Definition is_substring (t s : str) : Prop :=
  exists pre post, s = pre ++ t ++ post.

(** A string that neither starts nor ends with whitespace. *)
Definition starts_clean (s : str) : Prop :=
  match s with [] => True | c :: _ => is_space c = false end.

Definition trimmed (s : str) : Prop :=
  starts_clean s /\ starts_clean (rev s).

(** ** The overlap extractor as the specification words it *)


(** A marker together with the index of its first occurrence. *)
Definition candidate : Type := (Z * str)%type.

Definition found (c : candidate) : bool := negb (fst c =? -1)%Z.





(** The loop of the code over candidates whose positions are known. *)
Definition boundary_step (best_start : Z) (c : candidate) : Z :=
  if (negb (fst c =? -1) && (fst c >? best_start))%Z
  then (fst c + len (snd c))%Z else best_start.


(** ** The overlap extractor with the acceptance rule of the code *)








(** ** Sentences and chunks *)

(** The pieces paired as [text + delimiter], with the last piece alone. *)
Fixpoint pair_up (l : list str) : list str :=
  match l with
  | a :: b :: l' => (a ++ b) :: pair_up l'
  | _ => l
  end.

(** Two paragraphs of 300 characters each. *)
Definition two_paragraphs_300 : str :=
  repeat 97%N 300 ++ [NL; NL] ++ repeat 98%N 300.

(** A finished chunk: not empty, no whitespace at either end. *)
Definition good_chunk (chunk : str) : Prop := chunk <> [] /\ trimmed chunk.

(** Invariant of both packing loops. *)
Definition packing_invariant (st : pack_state) : Prop :=
  Forall good_chunk (fst st) /\ trimmed (snd st).

(** ** The gateway *)

(** The part of [load_documents] that follows the reading of the file. *)
Definition ingest_text {float : Type} (self : VectorStore) (text : str)
    : M float unit :=
  let chunks := _chunk_text text 500 100 in
  print (TextSplit (length chunks)) ;;;
  points_count <- get_collection_points_count (collection_name self) ;;
  if (points_count >? 0)%Z then print AlreadyLoaded
  else
    points <- embed_chunks (Z.of_nat (length chunks))
                           (enumerate_from 0 chunks) [] ;;
    client_upsert (collection_name self) points ;;;
    print (Loaded (length chunks) (collection_name self)).

(** A world with one file and one collection that holds a point. *)
Definition sample_point : PointStruct Z :=
  mkPoint (lit "id-0") [1%Z; 2%Z] (lit "stored text") 0.

Definition sample_world : World Z :=
  mkWorld (fun path => if str_eqb path (lit "data/docs.txt")
                       then Readable (lit "Some text.") else Absent)
          [(lit "rag_collection", [sample_point])]
          None None
          (fun _ _ => inr [0%Z])
          []
          (fun n => lit "id-" ++ repeat 49%N n)
          0
          [].

Definition sample_store : VectorStore :=
  mkStore (lit "rag_collection") (lit "./qdrant_db") 1536.

(** The same world before any ingestion, with a file of one paragraph of
    60 characters. *)
Definition fresh_world : World Z :=
  mkWorld (fun path => if str_eqb path (lit "data/docs.txt")
                       then Readable (repeat 97%N 60) else Absent)
          [(lit "rag_collection", [])]
          None None
          (fun _ _ => inr [0%Z])
          []
          (fun n => lit "id-" ++ repeat 49%N n)
          0
          [].

(** ** The layout of chunks *)

(** What a chunk is made of: the overlap fragment taken from the previous
    chunk, whole trimmed paragraphs, and trimmed sentences of a paragraph
    that was split. *)
Inductive piece : Type :=
| Overlap (s : str)
| Paragraph (s : str)
| Sentence (s : str).

Definition piece_text (p : piece) : str :=
  match p with Overlap s | Paragraph s | Sentence s => s end.

(** The separator written before a piece that is not the first of its
    chunk. *)
Definition joiner (p : piece) : str :=
  match p with
  | Paragraph _ => [NL; NL]
  | Sentence _ => lit " "
  | Overlap _ => []
  end.

(** The text of a chunk given by its pieces. *)
Definition render (chunk : list piece) : str :=
  match chunk with
  | [] => []
  | p :: rest =>
      piece_text p
        ++ concat (List.map (fun q => joiner q ++ piece_text q) rest)
  end.

Definition is_overlap (p : piece) : bool :=
  match p with Overlap _ => true | _ => false end.

(** A chunk without its overlap fragments. *)
Definition payload (chunk : list piece) : list piece :=
  filter (fun p => negb (is_overlap p)) chunk.

(** The paragraphs the chunker works on, and the sentences the paragraph
    chunker works on. *)
Definition nonblank_paragraphs (text : str) : list str :=
  filter truthy (List.map strip (split_nlnl text)).

Definition trimmed_sentences (paragraph : str) : list str :=
  filter truthy (List.map strip (split_sentences paragraph)).

(** A sequence of pieces that presents the paragraphs in order: each
    paragraph either whole, or, when it is longer than the chunk size, as
    its trimmed sentences. *)
Inductive covers (chunk_size : Z) : list str -> list piece -> Prop :=
| covers_nil : covers chunk_size [] []
| covers_whole p ps qs :
    covers chunk_size ps qs ->
    covers chunk_size (p :: ps) (Paragraph p :: qs)
| covers_split p ps qs :
    (len p > chunk_size)%Z ->
    covers chunk_size ps qs ->
    covers chunk_size (p :: ps)
           (List.map Sentence (trimmed_sentences p) ++ qs).

(** An overlap fragment is only found at the head of a chunk; it is not
    empty and it is the overlap text of the chunk before. *)
Definition headed (overlap : Z) (prev : option str) (chunk : list piece)
    : Prop :=
  match chunk with
  | Overlap o :: body =>
      o <> [] /\
      (exists c, prev = Some c /\ o = _get_overlap_text c overlap) /\
      payload body = body
  | body => payload body = body
  end.

Fixpoint well_formed (overlap : Z) (prev : option str)
    (layout : list (list piece)) : Prop :=
  match layout with
  | [] => True
  | chunk :: rest =>
      headed overlap prev chunk /\
      well_formed overlap (Some (render chunk)) rest
  end.

(** The chunks, without their overlap fragments and in order, give back
    the paragraphs. *)
Definition reconstructs (chunk_size overlap : Z) (chunks paragraphs : list str)
    : Prop :=
  exists layout : list (list piece),
    List.map render layout = chunks /\
    well_formed overlap None layout /\
    covers chunk_size paragraphs (flat_map payload layout).

(** Every piece of the chunk has some text. *)
Definition solid (chunk : list piece) : Prop :=
  Forall (fun p => piece_text p <> []) chunk.

(** The text of the chunk that precedes whatever follows [layout]. *)
Definition last_text (prev : option str) (layout : list (list piece))
    : option str :=
  match layout with
  | [] => prev
  | _ :: _ => Some (render (last layout []))
  end.

(** The state of a packing loop is laid out by chunks of pieces that are
    well formed and carry [pieces] as their payload. *)
Definition laid_out (overlap : Z) (st : pack_state) (pieces : list piece)
    : Prop :=
  exists done cur,
    List.map render done = fst st /\
    render cur = snd st /\
    Forall solid done /\
    solid cur /\
    well_formed overlap None (done ++ [cur]) /\
    flat_map payload (done ++ [cur]) = pieces.

(** A string of whitespace only. *)
Definition all_space (s : str) : Prop := Forall (fun c => is_space c = true) s.

(** ** Sizes and joins *)

(** The length of the longest string of a list, [0] for the empty list. *)
Definition longest (l : list str) : Z :=
  fold_right Z.max 0%Z (List.map len l).

(** ["\n\n".join(paragraphs)] *)
Fixpoint join_blank_lines (paragraphs : list str) : str :=
  match paragraphs with
  | [] => []
  | [p] => p
  | p :: rest => p ++ [NL; NL] ++ join_blank_lines rest
  end.

(** No [.], [!] or [?] of the paragraph is followed by whitespace. *)
Definition no_sentence_break (paragraph : str) : Prop :=
  forall pre c d post,
    paragraph = pre ++ c :: d :: post ->
    is_punct c = true -> is_space d = false.

(** The same, as a test that can be run. *)
Fixpoint break_free (s : str) : bool :=
  match s with
  | [] => true
  | c :: s' =>
      match s' with
      | [] => true
      | d :: _ => negb (is_punct c && is_space d) && break_free s'
      end
  end.

(** Every chunk of the state, closed or current, has at most [bound]
    characters. *)
Definition within (bound : Z) (st : pack_state) : Prop :=
  Forall (fun chunk => (len chunk <= bound)%Z) (fst st)
  /\ (len (snd st) <= bound)%Z.

(** The number of items of a loop that are not blank. *)
Definition count_nonblank (items : list str) : nat :=
  length (filter truthy (List.map strip items)).

(** ** Ingestion *)

(** The world after one successful round of the embedding loop: the
    request is logged, an identifier is drawn, and every tenth chunk is
    reported. *)
Definition after_embedding {float : Type} (w : World float)
    (total i : Z) (chunk : str) : World float :=
  mkWorld (files w) (collections w) (index_fault w) (upsert_fault w)
          (provider w) (requests w ++ [chunk]) (uuid_source w)
          (S (uuids_drawn w))
          (if ((i + 1) mod 10 =? 0)%Z
           then stdout w ++ [Progress (i + 1) total] else stdout w).

(** What [load_documents] does not touch: the file system, the behaviour
    of the index, of the provider and of the random source. *)
Definition services_unchanged {float : Type} (w w' : World float) : Prop :=
  files w' = files w /\ index_fault w' = index_fault w /\
  upsert_fault w' = upsert_fault w /\ provider w' = provider w /\
  uuid_source w' = uuid_source w.

(** The chunks of the file at [file_path], if it can be read. *)
Definition file_chunks {float : Type} (w : World float) (file_path : str)
    : list str :=
  match files w file_path with
  | Readable text => _chunk_text text 500 100
  | _ => []
  end.

(** The world after [print] of the number of chunks. *)
Definition after_split_report {float : Type} (w : World float) (n : nat)
    : World float :=
  mkWorld (files w) (collections w) (index_fault w) (upsert_fault w)
          (provider w) (requests w) (uuid_source w) (uuids_drawn w)
          (stdout w ++ [TextSplit n]).

(** The fresh world with a provider that is out of service. *)
Definition failing_world : World Z :=
  mkWorld (files fresh_world) (collections fresh_world) None None
          (fun _ _ => inl (lit "rate limit"))
          [] (uuid_source fresh_world) 0 [].

(** The world before any ingestion with a file too short to give a
    chunk. *)
Definition short_file_world : World Z :=
  mkWorld (fun path => if str_eqb path (lit "data/docs.txt")
                       then Readable (lit "Some text.") else Absent)
          (collections fresh_world) None None (provider fresh_world)
          [] (uuid_source fresh_world) 0 [].

(** The identifiers that the next [n] calls of [uuid.uuid4] return. *)
Definition next_uuids {float : Type} (w : World float) (n : nat) : list str :=
  List.map (uuid_source w) (seq (uuids_drawn w) n).

(** ** Retrieval *)

Import Retrieval.

(** The world after the request for the embedding of [query]. *)
Definition after_request {float : Type} (w : World float) (query : str)
    : World float :=
  mkWorld (files w) (collections w) (index_fault w) (upsert_fault w)
          (provider w) (requests w ++ [query]) (uuid_source w)
          (uuids_drawn w) (stdout w).

(** The document that [search] makes of a returned point whose payload
    has a text. *)
Definition formats_to {float : Type} (r : ScoredPoint float)
    (d : document float) : Prop :=
  doc_id d = scored_id r /\
  doc_score d = scored_score r /\
  dict_get (scored_payload r) "text" = Some (doc_text d) /\
  doc_chunk_id d = get_chunk_id (scored_payload r).

(** An index that answers every query with the first [top_k] points of
    the collection, each with score [0]. *)
Definition first_points (w : World Z) (name : str) (query : list Z)
    (top_k : Z) : str + list (ScoredPoint Z) :=
  match lookup_collection name (collections w) with
  | None => inl (lit "Collection not found")
  | Some points =>
      inr (List.map (fun p => mkScored (point_id p) 0%Z (payload_of p))
                    (firstn (Z.to_nat top_k) points))
  end.

(** An index that returns one point without payload text. *)
Definition bare_point (w : World Z) (name : str) (query : list Z)
    (top_k : Z) : str + list (ScoredPoint Z) :=
  inr [mkScored (lit "id-7") 0%Z [("chunk_id"%string, VInt 3)]].

(** ** Construction and release *)

Import Lifecycle.

(** The process with one more line printed. *)
Definition noted {float : Type} (s : Process float) (n : notice)
    : Process float :=
  mkProcess (world s) (vector_configs s) (notices s ++ [n])
            (connect_fault s) (openai_fault s) (create_fault s)
            (close_fault s) (close_calls s).

(** The process after [create_collection] made the collection [name]. *)
Definition created {float : Type} (s : Process float) (name : str)
    (params : VectorParams) : Process float :=
  mkProcess
    (mkWorld (files (world s)) (collections (world s) ++ [(name, [])])
             (index_fault (world s)) (upsert_fault (world s))
             (provider (world s)) (requests (world s))
             (uuid_source (world s)) (uuids_drawn (world s))
             (stdout (world s)))
    (vector_configs s ++ [(name, params)]) (notices s)
    (connect_fault s) (openai_fault s) (create_fault s)
    (close_fault s) (close_calls s).

(** The process after one more call of [client.close()]. *)
Definition close_counted {float : Type} (s : Process float) : Process float :=
  mkProcess (world s) (vector_configs s) (notices s) (connect_fault s)
            (openai_fault s) (create_fault s) (close_fault s)
            (S (close_calls s)).

(** A process in which everything works, around a given world, and one
    whose index cannot be reached. *)
Definition sound_process (w : World Z) : Process Z :=
  mkProcess w [] [] None None None (fun _ => None) 0.

Definition unreachable_world : World Z :=
  mkWorld (files fresh_world) [] (Some (lit "storage is locked")) None
          (provider fresh_world) [] (uuid_source fresh_world) 0 [].

(** A world whose index has no collection yet. *)
Definition empty_index_world : World Z :=
  mkWorld (files fresh_world) [] None None
          (provider fresh_world) [] (uuid_source fresh_world) 0 [].

(** * Properties *)

(** ** Strings *)

Example strip_ex : strip (lit "  a b. ") = lit "a b.".
Proof. reflexivity. Qed.

Example find_ex : find (lit "ab. cd. e") (lit ". ") = 2%Z.
Proof. reflexivity. Qed.

Example find_none : find (lit "abc") (lit "! ") = (-1)%Z.
Proof. reflexivity. Qed.

Example slice_negative : slice_from (lit "abcdef") (-2) = lit "ef".
Proof. reflexivity. Qed.

Example split_nlnl_ex :
  split_nlnl (lit "ab" ++ [NL; NL; NL] ++ lit "c") = [lit "ab"; NL :: lit "c"].
Proof. reflexivity. Qed.

Lemma is_suffix_refl s : is_suffix s s.
Proof. exists []. reflexivity. Qed.

Lemma is_suffix_trans a b c : is_suffix a b -> is_suffix b c -> is_suffix a c.
Proof.
  intros [p ->] [q ->]. exists (q ++ p). now rewrite app_assoc.
Qed.

Lemma is_suffix_length t s : is_suffix t s -> (length t <= length s)%nat.
Proof. intros [p ->]. rewrite length_app. lia. Qed.

Lemma is_suffix_skipn n (s : str) : is_suffix (skipn n s) s.
Proof. exists (firstn n s). symmetry. apply firstn_skipn. Qed.

Lemma is_suffix_substring t s : is_suffix t s -> is_substring t s.
Proof. intros [p ->]. exists p, []. now rewrite app_nil_r. Qed.

Lemma take_drop_while {A} (p : A -> bool) s :
  take_while p s ++ drop_while p s = s.
Proof.
  induction s as [|c s IH]; [reflexivity|]. simpl.
  destruct (p c); simpl; [now rewrite IH | reflexivity].
Qed.

Lemma drop_while_clean s : starts_clean (drop_while is_space s).
Proof.
  induction s as [|c s IH]; simpl; [exact I|].
  destruct (is_space c) eqn:E; [exact IH | exact E].
Qed.

Lemma drop_while_id s : starts_clean s -> drop_while is_space s = s.
Proof. destruct s as [|c s]; simpl; [reflexivity|]. now intros ->. Qed.

Lemma lstrip_suffix s : is_suffix (lstrip s) s.
Proof.
  exists (take_while is_space s). symmetry. apply take_drop_while.
Qed.

Lemma rstrip_prefix s : exists post, s = rstrip s ++ post.
Proof.
  exists (rev (take_while is_space (rev s))). unfold rstrip.
  rewrite <- rev_app_distr, take_drop_while. symmetry. apply rev_involutive.
Qed.

Lemma rstrip_id s : starts_clean (rev s) -> rstrip s = s.
Proof.
  intros H. unfold rstrip. rewrite (drop_while_id _ H). apply rev_involutive.
Qed.

Lemma rstrip_clean_end s : starts_clean (rev (rstrip s)).
Proof. unfold rstrip. rewrite rev_involutive. apply drop_while_clean. Qed.

Lemma starts_clean_prefix (a b : str) :
  starts_clean (a ++ b) -> starts_clean a.
Proof. destruct a; simpl; auto. Qed.

Lemma starts_clean_app (a b : str) :
  a <> [] -> starts_clean a -> starts_clean (a ++ b).
Proof. destruct a; simpl; [congruence | auto]. Qed.

Lemma strip_substring s : is_substring (strip s) s.
Proof.
  destruct (lstrip_suffix s) as [pre Hs].
  destruct (rstrip_prefix (lstrip s)) as [post Hl].
  exists pre, post. unfold strip. now rewrite <- Hl.
Qed.

Lemma strip_length s : (length (strip s) <= length s)%nat.
Proof.
  destruct (strip_substring s) as (pre & post & H).
  rewrite H at 2. rewrite !length_app. lia.
Qed.

Lemma strip_trimmed s : trimmed (strip s).
Proof.
  split; [|apply rstrip_clean_end].
  unfold strip. destruct (rstrip_prefix (lstrip s)) as [post H].
  apply starts_clean_prefix with post. rewrite <- H. apply drop_while_clean.
Qed.

Lemma trimmed_strip s : trimmed s -> strip s = s.
Proof.
  intros [H1 H2]. unfold strip, lstrip. rewrite (drop_while_id _ H1).
  now apply rstrip_id.
Qed.

Lemma trimmed_nil : trimmed [].
Proof. split; exact I. Qed.

(** Joining two non-empty trimmed strings gives a trimmed string. *)
Lemma trimmed_join a sep b :
  a <> [] -> b <> [] -> trimmed a -> trimmed b -> trimmed (a ++ sep ++ b).
Proof.
  intros Ha Hb [Ha1 _] [_ Hb2]. split.
  - now apply starts_clean_app.
  - rewrite !rev_app_distr, <- app_assoc. apply starts_clean_app; [|exact Hb2].
    intros E. apply Hb. rewrite <- (rev_involutive b), E. reflexivity.
Qed.

(** The end of a suffix is the end of the whole string. *)
Lemma suffix_clean_end t s :
  is_suffix t s -> starts_clean (rev s) -> starts_clean (rev t).
Proof.
  intros [p ->]. rewrite rev_app_distr. apply starts_clean_prefix.
Qed.

(** Stripping a suffix of a string that does not end with whitespace only
    removes leading characters. *)
Lemma strip_suffix t s :
  is_suffix t s -> starts_clean (rev s) -> is_suffix (strip t) s.
Proof.
  intros Ht Hs. unfold strip.
  assert (is_suffix (lstrip t) s) as Hl
    by (eapply is_suffix_trans; [apply lstrip_suffix | exact Ht]).
  rewrite rstrip_id; [exact Hl|]. now apply suffix_clean_end with s.
Qed.

Lemma slice_from_suffix s i : is_suffix (slice_from s i) s.
Proof. unfold slice_from. destruct (i <? 0)%Z; apply is_suffix_skipn. Qed.

(** The candidate window of [_get_overlap_text] for a positive size. *)
Lemma slice_from_neg_length s k :
  (1 <= k)%Z -> (k < len s)%Z ->
  length (slice_from s (- k)) = Z.to_nat k.
Proof.
  intros H1 H2. unfold slice_from, len in *.
  destruct (- k <? 0)%Z eqn:E; [|apply Z.ltb_ge in E; lia].
  rewrite length_skipn. lia.
Qed.

(** ** [_get_overlap_text] *)

(** The three shapes of the result. *)
Lemma get_overlap_text_cases text overlap_size :
  _get_overlap_text text overlap_size = text \/
  exists t, is_suffix t (slice_from text (- overlap_size)) /\
            (len text > overlap_size)%Z /\
            _get_overlap_text text overlap_size = strip t.
Proof.
  unfold _get_overlap_text.
  destruct (len text <=? overlap_size)%Z eqn:E; [now left|right].
  apply Z.leb_gt in E.
  destruct (_ >? 0)%Z.
  - eexists. split; [apply slice_from_suffix|]. split; [lia|reflexivity].
  - eexists. split; [apply is_suffix_refl|]. split; [lia|reflexivity].
Qed.

(** On a chunk that does not end with whitespace the overlap is a suffix
    of the chunk, and it is trimmed when the chunk is. *)
Lemma get_overlap_text_suffix text overlap_size :
  starts_clean (rev text) ->
  is_suffix (_get_overlap_text text overlap_size) text.
Proof.
  intros H.
  destruct (get_overlap_text_cases text overlap_size) as [-> | (t & Ht & _ & ->)].
  - apply is_suffix_refl.
  - apply strip_suffix; [|exact H].
    eapply is_suffix_trans; [exact Ht | apply slice_from_suffix].
Qed.

Lemma get_overlap_text_trimmed text overlap_size :
  trimmed text -> trimmed (_get_overlap_text text overlap_size).
Proof.
  intros H.
  destruct (get_overlap_text_cases text overlap_size) as [-> | (t & _ & _ & ->)].
  - exact H.
  - apply strip_trimmed.
Qed.

(** C10. For every text and every [overlap_size >= 1] the result of
    [_get_overlap_text] has at most [overlap_size] characters and is a
    contiguous substring of [text], obtained from a substring by at most
    removing surrounding whitespace. The bound needs [overlap_size >= 1]:
    the window [text[-0:]] is the whole text, and with size [0] a
    three-character text is returned whole. *)
Theorem get_overlap_text_bounded (text : str) (overlap_size : Z) :
  (1 <= overlap_size)%Z ->
  (len (_get_overlap_text text overlap_size) <= overlap_size)%Z /\
  is_substring (_get_overlap_text text overlap_size) text /\
  (exists sub, is_substring sub text /\
     (_get_overlap_text text overlap_size = sub \/
      _get_overlap_text text overlap_size = strip sub)) /\
  slice_from text (- 0) = text /\
  _get_overlap_text (lit "abc") 0 = lit "abc".
Proof.
  intros Hk.
  assert (exists sub, is_suffix sub text /\ (len sub <= overlap_size)%Z /\
            (_get_overlap_text text overlap_size = sub \/
             _get_overlap_text text overlap_size = strip sub))
    as (sub & Hsuf & Hlen & Hres).
  { unfold _get_overlap_text.
    destruct (len text <=? overlap_size)%Z eqn:E.
    - apply Z.leb_le in E. exists text.
      split; [apply is_suffix_refl|]. split; [exact E | now left].
    - apply Z.leb_gt in E.
      pose proof (slice_from_neg_length text overlap_size Hk E) as L.
      set (overlap_candidate := slice_from text (- overlap_size)) in *.
      destruct (_ >? 0)%Z.
      + eexists. split; [|split; [|right; reflexivity]].
        * eapply is_suffix_trans; apply slice_from_suffix.
        * pose proof (is_suffix_length _ _
                        (slice_from_suffix overlap_candidate
                           (fold_left (overlap_step overlap_candidate)
                                      sentence_starts 0%Z))).
          unfold len. lia.
      + exists overlap_candidate. split; [apply slice_from_suffix|].
        split; [unfold len; lia | now right]. }
  assert (is_substring (strip sub) text) as Hstrip.
  { destruct Hsuf as [pre ->].
    destruct (strip_substring sub) as (l & r & Hs).
    exists (pre ++ l), r. rewrite Hs at 1. now rewrite <- app_assoc. }
  split; [|split; [|split; [|split]]].
  - destruct Hres as [-> | ->]; [exact Hlen|].
    pose proof (strip_length sub). unfold len in *. lia.
  - destruct Hres as [-> | ->]; [now apply is_suffix_substring | exact Hstrip].
  - exists sub. split; [now apply is_suffix_substring | exact Hres].
  - reflexivity.
  - reflexivity.
Qed.

Lemma get_overlap_text_bounded_witness :
  (1 <= 5)%Z /\
  (len (_get_overlap_text (lit "One. Two. Three") 5) <= 5)%Z /\
  is_substring (_get_overlap_text (lit "One. Two. Three") 5)
               (lit "One. Two. Three").
Proof.
  split; [lia|].
  destruct (get_overlap_text_bounded (lit "One. Two. Three") 5) as (H1 & H2 & _).
  - lia.
  - split; [exact H1 | exact H2].
Defined.



Lemma overlap_step_boundary window best_start d :
  overlap_step window best_start d
  = boundary_step best_start (find window d, d).
Proof. reflexivity. Qed.
















(** ** The sentence splitter *)

Example lit_ex : lit ". " = [46%N; 32%N].
Proof. reflexivity. Qed.

Example re_split_ex :
  re_split (lit "Hi there.  How are you?! Fine... ok")
  = [lit "Hi there"; lit ".  "; lit "How are you"; lit "?! "; lit "Fine";
     lit "... "; lit "ok"].
Proof. reflexivity. Qed.

Example re_split_empty_piece :
  re_split (lit "a. . b") = [lit "a"; lit ". "; []; lit ". "; lit "b"].
Proof. reflexivity. Qed.

Example split_sentences_ex :
  split_sentences (lit "Hi there.  How are you?! Fine... ok")
  = [lit "Hi there.  "; lit "How are you?! "; lit "Fine... "; lit "ok"].
Proof. reflexivity. Qed.

Example split_long_paragraph_ex :
  _split_long_paragraph (lit "Hi there.  How are you?! Fine... ok") 12 5
  = [lit "Hi there."; lit "here. How are you?!"; lit "you?! Fine...";
     lit "ne... ok"].
Proof. reflexivity. Qed.

(** Punctuation is not whitespace, so backtracking in [[.!?]+\s+] never
    finds a match that the longest run of punctuation does not give. *)
Lemma is_punct_not_space c : is_punct c = true -> is_space c = false.
Proof.
  unfold is_punct. intros H.
  apply orb_true_iff in H as [H|H]; [apply orb_true_iff in H as [H|H]|];
    apply N.eqb_eq in H; subst c; reflexivity.
Qed.

Lemma no_space_inside_punct s j :
  (j < length (take_while is_punct s))%nat ->
  take_while is_space (skipn j s) = [].
Proof.
  revert j. induction s as [|c s IH]; intros j H; cbn [take_while] in H.
  - cbn [length] in H. lia.
  - destruct (is_punct c) eqn:E; cbn [length] in H; [|lia].
    destruct j as [|j]; cbn [skipn take_while].
    + now rewrite (is_punct_not_space c E).
    + apply IH. lia.
Qed.

Lemma match_backtrack_inside s j :
  (j < length (take_while is_punct s))%nat -> match_backtrack s j = None.
Proof.
  induction j as [|j IH]; intros H; [reflexivity|].
  cbn [match_backtrack]. rewrite (no_space_inside_punct s (S j) H).
  cbn [length Nat.ltb Nat.leb]. apply IH. lia.
Qed.

(** The match is the longest run of punctuation followed by the longest
    run of whitespace, both non-empty. *)
Lemma match_delim_longest s :
  match_delim s =
  let k := length (take_while is_punct s) in
  let m := length (take_while is_space (skipn k s)) in
  if ((0 <? k) && (0 <? m))%nat then Some (k + m)%nat else None.
Proof.
  unfold match_delim. cbv zeta.
  destruct (length (take_while is_punct s)) as [|k] eqn:E; [reflexivity|].
  cbn [match_backtrack]. change (0 <? S k)%nat with true. cbn [andb].
  destruct (0 <? length (take_while is_space (skipn (S k) s)))%nat;
    [reflexivity|].
  apply match_backtrack_inside. lia.
Qed.

Lemma re_split_concat s : concat (re_split s) = s.
Proof.
  funelim (re_split s).
  - cbn [concat].
    match goal with IH : concat _ = _ |- _ => rewrite IH end.
    rewrite (Nat.add_comm i n), <- skipn_skipn. now rewrite !firstn_skipn.
  - cbn [concat]. apply app_nil_r.
Qed.

(** An unfolding of [re_split] that does not mention the proof of
    termination. *)
Lemma re_split_eq s :
  re_split s =
  match re_search s with
  | Some (i, n) =>
      firstn i s :: firstn n (skipn i s) :: re_split (skipn (i + n) s)
  | None => [s]
  end.
Proof.
  funelim (re_split s).
  - rewrite e. reflexivity.
  - match goal with E : re_search _ = None |- _ => rewrite E end. reflexivity.
Qed.

(** [re.split] with one group returns an odd number of pieces. *)
Lemma re_split_odd s : Nat.Odd (length (re_split s)).
Proof.
  funelim (re_split s).
  - cbn [length].
    match goal with IH : Nat.Odd _ |- _ => destruct IH as [k IH]; rewrite IH end.
    exists (S k). lia.
  - exists O. reflexivity.
Qed.

Lemma pair_up_concat l : concat (pair_up l) = concat l.
Proof.
  revert l. fix IH 1. intros [|a [|b l]]; [reflexivity | reflexivity |].
  cbn [pair_up concat]. rewrite IH. now rewrite app_assoc.
Qed.

Lemma fold_attach_step sentences idx acc :
  fold_left (attach_step sentences) idx acc
  = acc ++ List.map (fun i => last (attach_step sentences [] i) []) idx.
Proof.
  revert acc. induction idx as [|i idx IH]; intros acc; cbn [fold_left List.map].
  - now rewrite app_nil_r.
  - rewrite IH. unfold attach_step.
    destruct (_ <? _)%Z; cbn [app last]; now rewrite <- app_assoc.
Qed.

Lemma range2_step n :
  range2 (Z.of_nat (S (S n)) - 1)
  = 0%Z :: List.map (fun i => (i + 2)%Z) (range2 (Z.of_nat n - 1)).
Proof.
  unfold range2.
  replace (Z.of_nat (S (S n)) - 1 + 1)%Z with (Z.of_nat n - 1 + 1 + 1 * 2)%Z by lia.
  rewrite Z.div_add by lia.
  assert (0 <= (Z.of_nat n - 1 + 1) / 2)%Z by (apply Z.div_pos; lia).
  replace (Z.to_nat ((Z.of_nat n - 1 + 1) / 2 + 1))
    with (S (Z.to_nat ((Z.of_nat n - 1 + 1) / 2))) by lia.
  cbn [seq List.map]. f_equal.
  rewrite <- seq_shift, !map_map. apply map_ext. intros k. lia.
Qed.

Lemma range2_nonneg stop i : In i (range2 stop) -> (0 <= i)%Z.
Proof.
  unfold range2. intros H. apply in_map_iff in H as (k & <- & _). lia.
Qed.

Lemma attach_delimiters_pair_up sentences :
  attach_delimiters sentences = pair_up sentences.
Proof.
  unfold attach_delimiters. rewrite fold_attach_step. cbn [app].
  revert sentences. fix IH 1. intros [|a [|b l]]; [reflexivity | reflexivity |].
  specialize (IH l).
  replace (Z.of_nat (length (a :: b :: l)) mod 2)%Z
    with (Z.of_nat (length l) mod 2)%Z.
  2:{ cbn [length].
      replace (Z.of_nat (S (S (length l)))) with (Z.of_nat (length l) + 1 * 2)%Z by lia.
      now rewrite Z.mod_add by lia. }
  change (length (a :: b :: l)) with (S (S (length l))).
  rewrite range2_step. cbn [List.map pair_up]. rewrite map_map.
  assert (List.map (fun i => last (attach_step (a :: b :: l) [] (i + 2)%Z) [])
                   (range2 (Z.of_nat (length l) - 1))
          = List.map (fun i => last (attach_step l [] i) [])
                     (range2 (Z.of_nat (length l) - 1))) as ->.
  { apply map_ext_in. intros i Hi. apply range2_nonneg in Hi.
    unfold attach_step, item. cbn [length].
    replace (Z.to_nat (i + 2)) with (S (S (Z.to_nat i))) by lia.
    replace (Z.to_nat (i + 2 + 1)) with (S (S (Z.to_nat (i + 1)))) by lia.
    cbn [nth].
    replace (i + 2 + 1 <? Z.of_nat (S (S (length l))))%Z
      with (i + 1 <? Z.of_nat (length l))%Z; [reflexivity|].
    destruct (i + 1 <? Z.of_nat (length l))%Z eqn:E; symmetry.
    - apply Z.ltb_lt in E. apply Z.ltb_lt. lia.
    - apply Z.ltb_ge in E. apply Z.ltb_ge. lia. }
  assert (attach_step (a :: b :: l) [] 0 = [a ++ b]) as ->.
  { unfold attach_step. cbn [length].
    replace (0 + 1 <? Z.of_nat (S (S (length l))))%Z with true
      by (symmetry; apply Z.ltb_lt; lia).
    reflexivity. }
  cbn [app last]. rewrite <- IH.
  destruct (_ =? 1)%Z eqn:E; [|reflexivity].
  destruct l as [|c l]; [discriminate E|]. reflexivity.
Qed.

(** C4. Concatenating, in order, the sentences produced by the
    sentence-splitting step of [_split_long_paragraph] gives back the
    paragraph exactly. *)
Theorem split_sentences_concat (paragraph : str) :
  concat (split_sentences paragraph) = paragraph.
Proof.
  unfold split_sentences.
  rewrite attach_delimiters_pair_up, pair_up_concat. apply re_split_concat.
Qed.

(** ** The packing loops *)

Lemma truthy_true {A} (s : list A) : s <> [] -> truthy s = true.
Proof. destruct s; [congruence | reflexivity]. Qed.

Lemma truthy_false {A} (s : list A) : truthy s = false -> s = [].
Proof. destruct s; [reflexivity | discriminate]. Qed.

Lemma truthy_nonempty {A} (s : list A) : truthy s = true -> s <> [].
Proof. destruct s; [discriminate | congruence]. Qed.

(** The branches of one iteration of the paragraph loop. *)
Lemma paragraph_step_blank chunk_size overlap st paragraph :
  strip paragraph = [] ->
  paragraph_step chunk_size overlap st paragraph = st.
Proof. intros H. destruct st. unfold paragraph_step. now rewrite H. Qed.

Lemma paragraph_step_fits chunk_size overlap chunks current_chunk paragraph :
  strip paragraph <> [] ->
  (len current_chunk + len (strip paragraph) + 2 <= chunk_size)%Z ->
  paragraph_step chunk_size overlap (chunks, current_chunk) paragraph
  = (chunks, if truthy current_chunk
             then current_chunk ++ [NL; NL] ++ strip paragraph
             else strip paragraph).
Proof.
  intros H1 H2. unfold paragraph_step.
  rewrite (truthy_true _ H1). cbn [negb].
  apply Z.leb_le in H2. rewrite H2. now destruct (truthy current_chunk).
Qed.

Lemma paragraph_step_flush chunk_size overlap chunks current_chunk paragraph :
  strip paragraph <> [] -> current_chunk <> [] ->
  (len current_chunk + len (strip paragraph) + 2 > chunk_size)%Z ->
  paragraph_step chunk_size overlap (chunks, current_chunk) paragraph
  = (chunks ++ [current_chunk],
     if truthy (_get_overlap_text current_chunk overlap)
     then _get_overlap_text current_chunk overlap ++ [NL; NL] ++ strip paragraph
     else strip paragraph).
Proof.
  intros H1 H2 H3. unfold paragraph_step.
  rewrite (truthy_true _ H1), (truthy_true _ H2). cbn [negb].
  replace (_ <=? chunk_size)%Z with false; [reflexivity|].
  symmetry. apply Z.leb_gt. lia.
Qed.

Lemma paragraph_step_long chunk_size overlap chunks paragraph :
  strip paragraph <> [] ->
  (len (strip paragraph) > chunk_size)%Z ->
  paragraph_step chunk_size overlap (chunks, []) paragraph
  = if truthy (_split_long_paragraph (strip paragraph) chunk_size overlap)
    then (chunks ++ removelast
                      (_split_long_paragraph (strip paragraph) chunk_size overlap),
          last (_split_long_paragraph (strip paragraph) chunk_size overlap) [])
    else (chunks, []).
Proof.
  intros H1 H2. unfold paragraph_step.
  rewrite (truthy_true _ H1). cbn [negb truthy].
  replace (_ <=? chunk_size)%Z with false
    by (symmetry; apply Z.leb_gt; unfold len in *; cbn [length]; lia).
  replace (_ >? chunk_size)%Z with true
    by (symmetry; apply Z.gtb_lt; lia).
  reflexivity.
Qed.

Lemma paragraph_step_alone chunk_size overlap chunks paragraph :
  strip paragraph <> [] ->
  (len (strip paragraph) + 2 > chunk_size)%Z ->
  (len (strip paragraph) <= chunk_size)%Z ->
  paragraph_step chunk_size overlap (chunks, []) paragraph
  = (chunks, strip paragraph).
Proof.
  intros H1 H2 H3. unfold paragraph_step.
  rewrite (truthy_true _ H1). cbn [negb truthy].
  replace (_ <=? chunk_size)%Z with false
    by (symmetry; apply Z.leb_gt; unfold len in *; cbn [length]; lia).
  replace (_ >? chunk_size)%Z with false; [reflexivity|].
  symmetry. rewrite Z.gtb_ltb. apply Z.ltb_ge. lia.
Qed.

(** ** The minimum length of a chunk *)

(** C2. Every chunk returned by [_chunk_text] has at least 50 characters,
    and the bound is enforced after assembly: the result is the list of
    assembled chunks filtered by length, and an assembled chunk may well
    be shorter. *)
Theorem chunk_text_min_length (text : str) (chunk_size overlap : Z) :
  _chunk_text text chunk_size overlap
    = filter (fun chunk => (50 <=? len chunk)%Z)
             (assemble_chunks text chunk_size overlap)
  /\ Forall (fun chunk => (50 <= len chunk)%Z)
            (_chunk_text text chunk_size overlap)
  /\ assemble_chunks (lit "too short") 500 100 = [lit "too short"]
  /\ _chunk_text (lit "too short") 500 100 = [].
Proof.
  assert (forall chunk, long_enough chunk = (50 <=? len chunk)%Z) as E.
  { intros chunk. unfold long_enough. apply Z.geb_leb. }
  split; [|split; [|split]].
  - unfold _chunk_text. apply filter_ext. exact E.
  - apply Forall_forall. intros chunk H. unfold _chunk_text in H.
    apply filter_In in H as [_ H]. rewrite E in H. now apply Z.leb_le.
  - reflexivity.
  - reflexivity.
Qed.

(** ** Two paragraphs of 300 characters *)

(** C5, as stated, fails on the code: the input yields two chunks. *)
Lemma two_paragraphs_300_not_one_chunk :
  length (_chunk_text two_paragraphs_300 500 100) <> 1%nat.
Proof. vm_compute. discriminate. Qed.

(** C5, amended. With [chunk_size=500] and [overlap=100], an input of two
    paragraphs whose trimmed texts have 300 characters each yields exactly
    two chunks: the first paragraph, and a chunk that ends with the second
    paragraph. *)
Theorem two_paragraphs_300_two_chunks (text p1 p2 : str) :
  split_nlnl text = [p1; p2] ->
  length (strip p1) = 300%nat ->
  length (strip p2) = 300%nat ->
  exists second,
    _chunk_text text 500 100 = [strip p1; second] /\
    is_suffix (strip p2) second /\
    length (_chunk_text text 500 100) = 2%nat.
Proof.
  intros Hsplit L1 L2.
  assert (strip p1 <> []) as N1 by (intros E; rewrite E in L1; discriminate).
  assert (strip p2 <> []) as N2 by (intros E; rewrite E in L2; discriminate).
  unfold _chunk_text, assemble_chunks. rewrite Hsplit. cbn [fold_left].
  rewrite paragraph_step_fits; [|exact N1|unfold len; cbn [length]; lia].
  cbn [truthy].
  rewrite paragraph_step_flush; [|exact N2|exact N1|unfold len; lia].
  set (second := if truthy _ then _ else _).
  assert (is_suffix (strip p2) second) as Hsuf.
  { subst second. destruct (truthy _).
    - exists (_get_overlap_text (strip p1) 100 ++ [NL; NL]).
      now rewrite <- app_assoc.
    - apply is_suffix_refl. }
  assert (second <> []) as N3.
  { destruct Hsuf as [pre E]. rewrite E. intros F.
    apply app_eq_nil in F as [_ F]. contradiction. }
  exists second. unfold flush. rewrite (truthy_true _ N3). cbn [app filter].
  assert (long_enough (strip p1) = true) as ->.
  { unfold long_enough, len. rewrite L1. reflexivity. }
  assert (long_enough second = true) as ->.
  { unfold long_enough, len. apply is_suffix_length in Hsuf.
    apply Z.geb_le. lia. }
  repeat split. exact Hsuf.
Qed.

Lemma two_paragraphs_300_two_chunks_witness :
  exists second,
    _chunk_text two_paragraphs_300 500 100 = [repeat 97%N 300; second] /\
    is_suffix (repeat 98%N 300) second /\
    length (_chunk_text two_paragraphs_300 500 100) = 2%nat.
Proof.
  apply (two_paragraphs_300_two_chunks two_paragraphs_300
           (repeat 97%N 300) (repeat 98%N 300)).
  - vm_compute. reflexivity.
  - vm_compute. reflexivity.
  - vm_compute. reflexivity.
Defined.

(** ** Chunks are trimmed, overlaps are suffixes *)

Lemma packing_invariant_init : packing_invariant ([], []).
Proof. split; [constructor | apply trimmed_nil]. Qed.

Lemma joined_chunk_trimmed current sep item :
  trimmed current -> trimmed item -> item <> [] ->
  trimmed (if truthy current then current ++ sep ++ item else item).
Proof.
  intros Hc Hi Ni. destruct (truthy current) eqn:E; [|exact Hi].
  apply truthy_nonempty in E. now apply trimmed_join.
Qed.

Lemma sentence_step_invariant chunk_size overlap st sentence :
  packing_invariant st ->
  packing_invariant (sentence_step chunk_size overlap st sentence).
Proof.
  destruct st as [chunks current]. intros [Hch Hcur]. cbn [fst snd] in *.
  unfold sentence_step.
  pose proof (strip_trimmed sentence) as Hs.
  destruct (truthy (strip sentence)) eqn:Es; cbn [negb]; [|now split].
  apply truthy_nonempty in Es.
  destruct (_ <=? chunk_size)%Z.
  - pose proof (joined_chunk_trimmed current (lit " ") _ Hcur Hs Es) as J.
    destruct (truthy current); now split.
  - destruct (truthy current) eqn:Ec; [|now split].
    apply truthy_nonempty in Ec. split; cbn [fst snd].
    + apply Forall_app. split; [exact Hch|]. constructor; [now split | constructor].
    + apply joined_chunk_trimmed; [|exact Hs|exact Es].
      now apply get_overlap_text_trimmed.
Qed.

Lemma fold_invariant (step : pack_state -> str -> pack_state) items st :
  (forall st x, packing_invariant st -> packing_invariant (step st x)) ->
  packing_invariant st -> packing_invariant (fold_left step items st).
Proof.
  intros Hstep. revert st.
  induction items as [|x items IH]; intros st H; [exact H|].
  cbn [fold_left]. apply IH, Hstep, H.
Qed.

Lemma flush_good st : packing_invariant st -> Forall good_chunk (flush st).
Proof.
  destruct st as [chunks current]. intros [Hch Hcur]. cbn [fst snd] in *.
  unfold flush. destruct (truthy current) eqn:E; [|exact Hch].
  apply truthy_nonempty in E. apply Forall_app.
  split; [exact Hch|]. constructor; [now split | constructor].
Qed.

Lemma split_long_paragraph_good paragraph chunk_size overlap :
  Forall good_chunk (_split_long_paragraph paragraph chunk_size overlap).
Proof.
  apply flush_good, fold_invariant; [|apply packing_invariant_init].
  intros st x. apply sentence_step_invariant.
Qed.

Lemma Forall_removelast {A} (Q : A -> Prop) l :
  Forall Q l -> Forall Q (removelast l).
Proof.
  induction 1 as [|x l Hx Hl IH]; [constructor|].
  cbn [removelast]. destruct l; [constructor | now constructor].
Qed.

Lemma Forall_last {A} (Q : A -> Prop) l d :
  l <> [] -> Forall Q l -> Q (last l d).
Proof.
  intros N H. induction H as [|x l Hx Hl IH]; [congruence|].
  cbn [last]. destruct l; [exact Hx | apply IH; congruence].
Qed.

Lemma paragraph_step_invariant chunk_size overlap st paragraph :
  packing_invariant st ->
  packing_invariant (paragraph_step chunk_size overlap st paragraph).
Proof.
  destruct st as [chunks current]. intros [Hch Hcur]. cbn [fst snd] in *.
  unfold paragraph_step.
  pose proof (strip_trimmed paragraph) as Hs.
  destruct (truthy (strip paragraph)) eqn:Es; cbn [negb]; [|now split].
  apply truthy_nonempty in Es.
  destruct (_ <=? chunk_size)%Z.
  - pose proof (joined_chunk_trimmed current [NL; NL] _ Hcur Hs Es) as J.
    destruct (truthy current); now split.
  - destruct (truthy current) eqn:Ec.
    + apply truthy_nonempty in Ec. split; cbn [fst snd].
      * apply Forall_app. split; [exact Hch|].
        constructor; [now split | constructor].
      * apply joined_chunk_trimmed; [|exact Hs|exact Es].
        now apply get_overlap_text_trimmed.
    + destruct (_ >? chunk_size)%Z; [|now split].
      pose proof (split_long_paragraph_good (strip paragraph) chunk_size overlap) as G.
      destruct (truthy (_split_long_paragraph _ _ _)) eqn:Et; [|now split].
      apply truthy_nonempty in Et. split; cbn [fst snd].
      * apply Forall_app. split; [exact Hch | now apply Forall_removelast].
      * now apply (Forall_last good_chunk _ [] Et G).
Qed.

(** Every assembled chunk is non-empty and trimmed. *)
Lemma assemble_chunks_good text chunk_size overlap :
  Forall good_chunk (assemble_chunks text chunk_size overlap).
Proof.
  apply flush_good, fold_invariant; [|apply packing_invariant_init].
  intros st x. apply paragraph_step_invariant.
Qed.

(** C6. At every chunk boundary of [_chunk_text] (a paragraph that does
    not fit behind a non-empty current chunk) and of
    [_split_long_paragraph] (likewise for a sentence), the current chunk
    is closed, the next chunk starts with the overlap text of the closed
    chunk when that text is not empty, and the overlap text is a suffix of
    the closed chunk and carries no surrounding whitespace. *)
Theorem overlap_is_suffix_of_previous_chunk (chunk_size overlap : Z) :
  (forall text before paragraph after chunks current_chunk,
     split_nlnl text = before ++ paragraph :: after ->
     fold_left (paragraph_step chunk_size overlap) before ([], [])
       = (chunks, current_chunk) ->
     strip paragraph <> [] -> current_chunk <> [] ->
     (len current_chunk + len (strip paragraph) + 2 > chunk_size)%Z ->
     let overlap_text := _get_overlap_text current_chunk overlap in
     paragraph_step chunk_size overlap (chunks, current_chunk) paragraph
       = (chunks ++ [current_chunk],
          if truthy overlap_text
          then overlap_text ++ [NL; NL] ++ strip paragraph
          else strip paragraph)
     /\ is_suffix overlap_text current_chunk
     /\ strip overlap_text = overlap_text)
  /\
  (forall paragraph before sentence after chunks current_chunk,
     split_sentences paragraph = before ++ sentence :: after ->
     fold_left (sentence_step chunk_size overlap) before ([], [])
       = (chunks, current_chunk) ->
     strip sentence <> [] -> current_chunk <> [] ->
     (len current_chunk + len (strip sentence) + 1 > chunk_size)%Z ->
     let overlap_text := _get_overlap_text current_chunk overlap in
     sentence_step chunk_size overlap (chunks, current_chunk) sentence
       = (chunks ++ [current_chunk],
          if truthy overlap_text
          then overlap_text ++ lit " " ++ strip sentence
          else strip sentence)
     /\ is_suffix overlap_text current_chunk
     /\ strip overlap_text = overlap_text).
Proof.
  assert (forall current_chunk, trimmed current_chunk ->
            is_suffix (_get_overlap_text current_chunk overlap) current_chunk /\
            strip (_get_overlap_text current_chunk overlap)
              = _get_overlap_text current_chunk overlap) as Hover.
  { intros c Hc. split.
    - apply get_overlap_text_suffix, Hc.
    - apply trimmed_strip, get_overlap_text_trimmed, Hc. }
  split.
  - intros text before paragraph after chunks current_chunk _ Hst Np Nc Hbig.
    split; [now apply paragraph_step_flush|]. apply Hover.
    assert (packing_invariant (chunks, current_chunk)) as [_ H]; [|exact H].
    rewrite <- Hst. apply fold_invariant; [|apply packing_invariant_init].
    intros st x. apply paragraph_step_invariant.
  - intros paragraph before sentence after chunks current_chunk _ Hst Ns Nc Hbig.
    split.
    + unfold sentence_step.
      rewrite (truthy_true _ Ns), (truthy_true _ Nc). cbn [negb].
      replace (_ <=? chunk_size)%Z with false; [reflexivity|].
      symmetry. apply Z.leb_gt. lia.
    + apply Hover.
      assert (packing_invariant (chunks, current_chunk)) as [_ H]; [|exact H].
      rewrite <- Hst. apply fold_invariant; [|apply packing_invariant_init].
      intros st x. apply sentence_step_invariant.
Qed.

Lemma overlap_is_suffix_of_previous_chunk_witness :
  is_suffix (_get_overlap_text (repeat 97%N 300) 100) (repeat 97%N 300) /\
  is_suffix (_get_overlap_text (lit "Hi there.") 5) (lit "Hi there.").
Proof.
  destruct (overlap_is_suffix_of_previous_chunk 500 100) as [Hp _].
  destruct (overlap_is_suffix_of_previous_chunk 12 5) as [_ Hs].
  split.
  - destruct (Hp two_paragraphs_300 [repeat 97%N 300] (repeat 98%N 300) []
                 [] (repeat 97%N 300)) as (_ & H & _).
    + vm_compute. reflexivity.
    + vm_compute. reflexivity.
    + vm_compute. discriminate.
    + vm_compute. discriminate.
    + vm_compute. reflexivity.
    + exact H.
  - destruct (Hs (lit "Hi there.  How are you?! Fine... ok")
                 [lit "Hi there.  "] (lit "How are you?! ")
                 [lit "Fine... "; lit "ok"] [] (lit "Hi there."))
      as (_ & H & _).
    + vm_compute. reflexivity.
    + vm_compute. reflexivity.
    + vm_compute. discriminate.
    + vm_compute. discriminate.
    + vm_compute. reflexivity.
    + exact H.
Defined.

(** ** Ingestion and statistics *)


Section GatewayProperties.

Context {float : Type}.

Lemma embed_chunks_error total todo points (w w' : World float) e :
  embed_chunks total todo points w = (inl e, w') ->
  exists description, e = ProviderFailure description.
Proof.
  revert points w. induction todo as [|[i chunk] todo IH]; intros points w H.
  - discriminate H.
  - cbn [embed_chunks] in H. unfold bind at 1 in H.
    unfold _create_embedding in H at 1.
    destruct (provider w (requests w) chunk) as [d|embedding].
    + exists d. congruence.
    + unfold bind at 1, uuid4 at 1 in H. unfold bind at 1 in H.
      destruct ((i + 1) mod 10 =? 0)%Z.
      * unfold print at 1 in H. now apply IH in H.
      * unfold ret at 1 in H. now apply IH in H.
Qed.

(** [load_documents] by what the path denotes. *)
Lemma load_documents_absent (self : VectorStore) file_path (w : World float) :
  files w file_path = Absent ->
  load_documents self file_path w
  = (inl (FileNotFoundError (not_found_message file_path)), w).
Proof.
  intros H. unfold load_documents, bind, os_path_exists. now rewrite H.
Qed.

Lemma load_documents_unreadable (self : VectorStore) file_path
    (w : World float) d :
  files w file_path = Unreadable d ->
  load_documents self file_path w = (inl (ReadError d), w).
Proof.
  intros H. unfold load_documents, bind, os_path_exists, read_text.
  rewrite H. cbn [negb]. now rewrite H.
Qed.

Lemma load_documents_readable (self : VectorStore) file_path
    (w : World float) text :
  files w file_path = Readable text ->
  load_documents self file_path w = ingest_text self text w.
Proof.
  intros H. unfold load_documents, bind at 1, os_path_exists.
  rewrite H. cbn [negb]. unfold bind at 1, read_text. now rewrite H.
Qed.

Lemma ingest_text_populated (self : VectorStore) text (w : World float) points :
  lookup_collection (collection_name self) (collections w) = Some points ->
  points <> [] ->
  index_fault w = None ->
  ingest_text self text w
  = (inr tt,
     mkWorld (files w) (collections w) (index_fault w) (upsert_fault w)
       (provider w) (requests w) (uuid_source w) (uuids_drawn w)
       (stdout w ++ [TextSplit (length (_chunk_text text 500 100));
                     AlreadyLoaded])).
Proof.
  intros Hlook Hne Hfault.
  unfold ingest_text, bind, print at 1, get_collection_points_count.
  cbn [index_fault collections]. rewrite Hfault, Hlook.
  assert ((Z.of_nat (length points) >? 0)%Z = true) as ->.
  { apply Z.gtb_lt. destruct points; [congruence | cbn [length]; lia]. }
  unfold print. cbn. now rewrite <- app_assoc.
Qed.

Lemma ingest_text_index_fault (self : VectorStore) text (w : World float) d :
  index_fault w = Some d ->
  ingest_text self text w
  = (inl (IndexFailure d),
     mkWorld (files w) (collections w) (index_fault w) (upsert_fault w)
       (provider w) (requests w) (uuid_source w) (uuids_drawn w)
       (stdout w ++ [TextSplit (length (_chunk_text text 500 100))])).
Proof.
  intros Hfault.
  unfold ingest_text, bind, print at 1, get_collection_points_count.
  cbn [index_fault collections]. now rewrite Hfault.
Qed.

(** C7. If the target collection holds at least one point when
    [load_documents] is called, nothing is ingested: the collections of
    the index, and with them the point count and the stored points, are
    unchanged, no request reaches the embedding provider and no identifier
    is drawn; when the file can be read and the index answers, the call
    returns normally after reporting that the documents are loaded. *)
Theorem load_documents_skips_populated_collection
    (self : VectorStore) (file_path : str) (w : World float)
    (points : list (PointStruct float)) :
  lookup_collection (collection_name self) (collections w) = Some points ->
  points <> [] ->
  collections (snd (load_documents self file_path w)) = collections w /\
  lookup_collection (collection_name self)
    (collections (snd (load_documents self file_path w))) = Some points /\
  requests (snd (load_documents self file_path w)) = requests w /\
  uuids_drawn (snd (load_documents self file_path w)) = uuids_drawn w /\
  (forall text, files w file_path = Readable text -> index_fault w = None ->
     fst (load_documents self file_path w) = inr tt /\
     stdout (snd (load_documents self file_path w))
       = stdout w ++ [TextSplit (length (_chunk_text text 500 100));
                      AlreadyLoaded]).
Proof.
  intros Hlook Hne.
  destruct (files w file_path) as [|text|d] eqn:Hfile.
  - rewrite (load_documents_absent _ _ _ Hfile). cbn [fst snd].
    repeat split; try assumption; intros; congruence.
  - rewrite (load_documents_readable _ _ _ _ Hfile).
    destruct (index_fault w) as [d|] eqn:Hfault.
    + rewrite (ingest_text_index_fault _ _ _ _ Hfault).
      cbn [fst snd collections requests uuids_drawn].
      repeat split; try assumption; intros; congruence.
    + rewrite (ingest_text_populated _ _ _ _ Hlook Hne Hfault).
      cbn [fst snd collections requests uuids_drawn stdout].
      repeat split; try assumption; intros; congruence.
  - rewrite (load_documents_unreadable _ _ _ _ Hfile). cbn [fst snd].
    repeat split; try assumption; intros; congruence.
Qed.

(** Past the reading of the file only the index and the provider can
    fail, or the upsert be refused. *)
Lemma ingest_text_error (self : VectorStore) text (w w' : World float) e :
  ingest_text self text w = (inl e, w') ->
  exists description,
    e = IndexFailure description \/ e = ProviderFailure description \/
    e = ValueError description.
Proof.
  unfold ingest_text. unfold bind at 1, print at 1.
  unfold bind at 1, get_collection_points_count. cbn [index_fault collections].
  destruct (index_fault w) as [d|].
  { intros H. exists d. left. congruence. }
  destruct (lookup_collection _ _) as [points|].
  2:{ intros H. eexists. left. injection H as <- _. reflexivity. }
  destruct (_ >? 0)%Z; [discriminate|].
  unfold bind at 1.
  destruct (embed_chunks _ _ _ _) as [[e'|points'] w1] eqn:Hembed.
  { intros H. destruct (embed_chunks_error _ _ _ _ _ _ Hembed) as [d ->].
    exists d. right. left. congruence. }
  unfold bind at 1, client_upsert.
  destruct points' as [|point points'].
  { intros H. eexists. right. right. injection H as <- _. reflexivity. }
  destruct (index_fault w1) as [d|].
  { intros H. exists d. left. congruence. }
  destruct (upsert_fault w1) as [d|].
  { intros H. exists d. left. congruence. }
  destruct (lookup_collection _ _) as [stored|].
  - discriminate.
  - intros H. eexists. left. injection H as <- _. reflexivity.
Qed.

(** C8. [load_documents] raises [FileNotFoundError] exactly when the
    path does not exist, and it does so before anything else happens: the
    world, and with it the collection and the log of embedding requests,
    is the one the call started in. *)
Theorem load_documents_not_found
    (self : VectorStore) (file_path : str) (w : World float) :
  ((exists p, fst (load_documents self file_path w)
                = inl (FileNotFoundError p))
   <-> files w file_path = Absent)
  /\
  (files w file_path = Absent ->
   load_documents self file_path w
   = (inl (FileNotFoundError (not_found_message file_path)), w)).
Proof.
  split; [|apply load_documents_absent].
  split.
  - intros [p H]. destruct (files w file_path) as [|text|d] eqn:Hfile.
    + reflexivity.
    + rewrite (load_documents_readable _ _ _ _ Hfile) in H.
      destruct (ingest_text self text w) as [[e|[]] w'] eqn:Hingest;
        [|discriminate].
      apply ingest_text_error in Hingest as [d [-> | [-> | ->]]];
        discriminate.
    + rewrite (load_documents_unreadable _ _ _ _ Hfile) in H. discriminate.
  - intros H. exists (not_found_message file_path).
    now rewrite (load_documents_absent _ _ _ H).
Qed.

(** C9. [get_collection_stats] always returns a dictionary and leaves
    the world as it is. When the index answers, the dictionary holds the
    name of the collection, its number of points, the storage location
    and the vector size; when the access fails, it holds a count of [0]
    and the description of the failure under ["error"]. *)
Theorem get_collection_stats_never_raises
    (self : VectorStore) (w : World float) :
  exists d,
    get_collection_stats self w = (inr d, w) /\
    dict_get d "name" = Some (VStr (collection_name self)) /\
    dict_get d "persist_directory" = Some (VStr (persist_directory self)) /\
    match get_collection_points_count (collection_name self) w with
    | (inr points_count, _) =>
        dict_get d "count" = Some (VInt points_count) /\
        dict_get d "vector_size" = Some (VInt (vector_size self)) /\
        dict_get d "error" = None
    | (inl e, _) =>
        dict_get d "count" = Some (VInt 0) /\
        dict_get d "error" = Some (VStr (describe e))
    end.
Proof.
  unfold get_collection_stats, try_except, bind.
  assert (snd (get_collection_points_count (collection_name self) w) = w) as Hw.
  { unfold get_collection_points_count.
    destruct (index_fault w); [reflexivity|].
    destruct (lookup_collection _ _); reflexivity. }
  destruct (get_collection_points_count (collection_name self) w)
    as [[e|points_count] w'].
  - cbn [snd] in Hw. subst w'. eexists. split; [reflexivity|].
    repeat split.
  - cbn [snd] in Hw. subst w'. eexists. split; [reflexivity|].
    repeat split.
Qed.

(** The count reported is the number of points stored. *)
Lemma get_collection_stats_count (self : VectorStore) (w : World float) points :
  index_fault w = None ->
  lookup_collection (collection_name self) (collections w) = Some points ->
  exists d,
    get_collection_stats self w = (inr d, w) /\
    dict_get d "count" = Some (VInt (Z.of_nat (length points))).
Proof.
  intros Hfault Hlook.
  unfold get_collection_stats, try_except, bind, get_collection_points_count.
  rewrite Hfault, Hlook. eexists. split; reflexivity.
Qed.

(** With an unreachable index the count is [0]. *)
Lemma get_collection_stats_unreachable (self : VectorStore) (w : World float) d :
  index_fault w = Some d ->
  exists stats,
    get_collection_stats self w = (inr stats, w) /\
    dict_get stats "count" = Some (VInt 0) /\
    dict_get stats "error" = Some (VStr d).
Proof.
  intros Hfault.
  unfold get_collection_stats, try_except, bind, get_collection_points_count.
  rewrite Hfault. eexists. repeat split.
Qed.

End GatewayProperties.

(** On an empty collection the document is ingested: one request to the
    provider and one stored point per chunk. *)
Example load_documents_ingests :
  load_documents sample_store (lit "data/docs.txt") fresh_world
  = (inr tt,
     mkWorld (files fresh_world)
             [(lit "rag_collection",
               [mkPoint (lit "id-") [0%Z] (repeat 97%N 60) 0])]
             None None (provider fresh_world) [repeat 97%N 60]
             (uuid_source fresh_world) 1
             [TextSplit 1; Loaded 1 (lit "rag_collection")]).
Proof. vm_compute. reflexivity. Qed.

Lemma load_documents_skips_populated_collection_witness :
  collections (snd (load_documents sample_store (lit "data/docs.txt")
                      sample_world))
    = collections sample_world /\
  requests (snd (load_documents sample_store (lit "data/docs.txt")
                   sample_world)) = [].
Proof.
  destruct (load_documents_skips_populated_collection sample_store
              (lit "data/docs.txt") sample_world [sample_point])
    as (H1 & _ & H2 & _).
  - reflexivity.
  - discriminate.
  - split; [exact H1 | exact H2].
Defined.

Lemma load_documents_not_found_witness :
  load_documents sample_store (lit "missing.txt") sample_world
  = (inl (FileNotFoundError (not_found_message (lit "missing.txt"))),
     sample_world).
Proof.
  apply (load_documents_not_found sample_store (lit "missing.txt") sample_world).
  reflexivity.
Defined.

(** ** Reconstruction of the paragraphs from the chunks *)

(** C1, as stated, fails on the code: a short text has a paragraph and no
    chunk. *)
Lemma chunk_text_loses_short_paragraph :
  nonblank_paragraphs (lit "too short") = [lit "too short"] /\
  _chunk_text (lit "too short") 500 100 = [] /\
  ~ reconstructs 500 100 (_chunk_text (lit "too short") 500 100)
      (nonblank_paragraphs (lit "too short")).
Proof.
  split; [reflexivity|]. split; [reflexivity|].
  intros (layout & Hrender & _ & Hcovers).
  change (_chunk_text (lit "too short") 500 100) with (@nil str) in Hrender.
  apply map_eq_nil in Hrender. subst layout.
  change (nonblank_paragraphs (lit "too short")) with [lit "too short"] in Hcovers.
  cbn [flat_map] in Hcovers. inversion Hcovers.
Qed.

Lemma truthy_render chunk : solid chunk -> truthy (render chunk) = truthy chunk.
Proof.
  destruct chunk as [|p rest]; [reflexivity|]. intros H.
  inversion H as [|? ? Hp _]; subst. cbn [truthy render].
  destruct (piece_text p); [contradiction | reflexivity].
Qed.

Lemma render_snoc chunk q :
  render (chunk ++ [q])
  = if truthy chunk then render chunk ++ joiner q ++ piece_text q
    else piece_text q.
Proof.
  destruct chunk as [|p rest]; cbn [app render truthy List.map concat].
  - apply app_nil_r.
  - rewrite map_app, concat_app. cbn [List.map concat].
    now rewrite app_nil_r, <- !app_assoc.
Qed.

Lemma payload_app a b : payload (a ++ b) = payload a ++ payload b.
Proof. apply filter_app. Qed.

Lemma flat_map_payload_snoc layout chunk :
  flat_map payload (layout ++ [chunk]) = flat_map payload layout ++ payload chunk.
Proof. rewrite flat_map_app. cbn [flat_map]. now rewrite app_nil_r. Qed.

Lemma headed_None overlap prev chunk :
  headed overlap None chunk -> headed overlap prev chunk.
Proof.
  destruct chunk as [|[o|p|s] body]; cbn [headed]; auto.
  intros (_ & (c & E & _) & _). discriminate E.
Qed.

Lemma well_formed_None overlap prev layout :
  well_formed overlap None layout -> well_formed overlap prev layout.
Proof.
  destruct layout as [|chunk rest]; cbn [well_formed]; [auto|].
  intros [H1 H2]. split; [now apply headed_None | exact H2].
Qed.

Lemma last_text_cons prev chunk layout :
  last_text prev (chunk :: layout) = last_text (Some (render chunk)) layout.
Proof. destruct layout; reflexivity. Qed.

Lemma last_text_snoc prev layout chunk :
  last_text prev (layout ++ [chunk]) = Some (render chunk).
Proof.
  unfold last_text. destruct (layout ++ [chunk]) eqn:E.
  - now apply app_eq_nil in E as [_ E].
  - rewrite <- E. now rewrite last_last.
Qed.

Lemma well_formed_app overlap prev l1 l2 :
  well_formed overlap prev (l1 ++ l2)
  <-> well_formed overlap prev l1
      /\ well_formed overlap (last_text prev l1) l2.
Proof.
  revert prev. induction l1 as [|chunk l1 IH]; intros prev.
  - cbn [app well_formed last_text]. tauto.
  - rewrite last_text_cons. cbn [app well_formed]. rewrite IH. tauto.
Qed.

Lemma headed_snoc overlap prev chunk q :
  is_overlap q = false -> headed overlap prev chunk ->
  headed overlap prev (chunk ++ [q]).
Proof.
  intros Hq H.
  assert (forall body, payload body = body -> payload (body ++ [q]) = body ++ [q])
    as Hbody.
  { intros body E. rewrite payload_app, E. unfold payload. cbn [filter].
    now rewrite Hq. }
  destruct chunk as [|[o|p|s] body]; cbn [app headed] in *.
  - destruct q; [discriminate Hq | reflexivity | reflexivity].
  - destruct H as (H1 & H2 & H3). repeat split; auto.
  - apply (Hbody (Paragraph p :: body)), H.
  - apply (Hbody (Sentence s :: body)), H.
Qed.

Section Layout.

Variables chunk_size overlap : Z.

Lemma laid_out_init : laid_out overlap ([], []) [].
Proof.
  exists [], []. repeat split; try reflexivity; constructor.
Qed.

(** A piece joins the current chunk. *)
Lemma laid_out_append chunks current pieces q :
  laid_out overlap (chunks, current) pieces ->
  is_overlap q = false -> piece_text q <> [] ->
  laid_out overlap (chunks, if truthy current
                    then current ++ joiner q ++ piece_text q
                    else piece_text q)
           (pieces ++ [q]).
Proof.
  intros (done & cur & Hdone & Hcur & Hsd & Hsolid & Hwf & Hpay) Hq Hne.
  cbn [fst snd] in *. exists done, (cur ++ [q]). cbn [fst snd].
  split; [exact Hdone|]. split; [|split; [exact Hsd|split; [|split]]].
  - rewrite render_snoc, <- (truthy_render cur Hsolid), Hcur. reflexivity.
  - apply Forall_app. split; [exact Hsolid|]. now repeat constructor.
  - apply well_formed_app in Hwf as [Hwf1 Hwf2]. apply well_formed_app.
    split; [exact Hwf1|]. cbn [well_formed] in *.
    split; [|exact I]. now apply headed_snoc.
  - rewrite flat_map_payload_snoc in *. rewrite payload_app, app_assoc, Hpay.
    unfold payload at 1. cbn [filter]. now rewrite Hq.
Qed.

(** The current chunk is closed and a piece opens the next one, behind the
    overlap text if there is one. *)
Lemma laid_out_flush chunks current pieces q :
  laid_out overlap (chunks, current) pieces ->
  is_overlap q = false -> piece_text q <> [] ->
  laid_out overlap (chunks ++ [current],
            if truthy (_get_overlap_text current overlap)
            then _get_overlap_text current overlap ++ joiner q ++ piece_text q
            else piece_text q)
           (pieces ++ [q]).
Proof.
  intros (done & cur & Hdone & Hcur & Hsd & Hsolid & Hwf & Hpay) Hq Hne.
  cbn [fst snd] in *.
  set (o := _get_overlap_text current overlap).
  exists (done ++ [cur]), (if truthy o then [Overlap o; q] else [q]).
  cbn [fst snd].
  assert (payload [q] = [q]) as Hpq
    by (unfold payload; cbn [filter]; now rewrite Hq).
  split; [|split; [|split; [|split; [|split]]]].
  - rewrite map_app, Hdone. cbn [List.map]. now rewrite Hcur.
  - destruct (truthy o); cbn [render List.map concat piece_text];
      now rewrite !app_nil_r.
  - apply Forall_app. split; [exact Hsd | now repeat constructor].
  - destruct (truthy o) eqn:Eo; [|now repeat constructor].
    apply truthy_nonempty in Eo. now repeat constructor.
  - apply well_formed_app. split; [exact Hwf|].
    rewrite last_text_snoc. cbn [well_formed]. split; [|exact I].
    destruct (truthy o) eqn:Eo; cbn [headed].
    + apply truthy_nonempty in Eo. split; [exact Eo|]. split; [|exact Hpq].
      exists (render cur). split; [reflexivity|]. subst o. now rewrite Hcur.
    + destruct q; try exact Hpq. discriminate Hq.
  - rewrite flat_map_payload_snoc, Hpay. f_equal.
    destruct (truthy o); [|exact Hpq].
    unfold payload. cbn [filter is_overlap negb]. exact Hpq.
Qed.

(** After the final flush. *)
Lemma laid_out_flushed st pieces :
  laid_out overlap st pieces ->
  exists layout,
    List.map render layout = flush st /\
    well_formed overlap None layout /\
    flat_map payload layout = pieces /\
    Forall solid layout.
Proof.
  destruct st as [chunks current].
  intros (done & cur & Hdone & Hcur & Hsd & Hsolid & Hwf & Hpay).
  cbn [fst snd] in *. unfold flush.
  destruct (truthy current) eqn:E.
  - exists (done ++ [cur]). rewrite map_app, Hdone. cbn [List.map].
    rewrite Hcur. repeat split; try assumption.
    apply Forall_app. split; [exact Hsd | now repeat constructor].
  - rewrite <- Hcur, truthy_render in E by exact Hsolid.
    apply truthy_false in E. subst cur.
    apply well_formed_app in Hwf as [Hwf _].
    rewrite flat_map_payload_snoc in Hpay. cbn [payload filter] in Hpay.
    rewrite app_nil_r in Hpay.
    exists done. now repeat split.
Qed.

Lemma pair_if {A B} (b : bool) (a : A) (x y : B) :
  (if b then (a, x) else (a, y)) = (a, if b then x else y).
Proof. now destruct b. Qed.

Lemma sentence_step_laid_out st pieces sentence :
  laid_out overlap st pieces ->
  laid_out overlap (sentence_step chunk_size overlap st sentence)
           (pieces ++ List.map Sentence (filter truthy [strip sentence])).
Proof.
  destruct st as [chunks current]. intros H.
  unfold sentence_step. cbn [filter].
  destruct (truthy (strip sentence)) eqn:Es; cbn [negb List.map].
  2:{ now rewrite app_nil_r. }
  apply truthy_nonempty in Es.
  destruct (_ <=? chunk_size)%Z.
  - rewrite pair_if.
    now apply (laid_out_append chunks current pieces (Sentence (strip sentence))).
  - destruct (truthy current) eqn:Ec.
    + now apply (laid_out_flush chunks current pieces (Sentence (strip sentence))).
    + apply truthy_false in Ec. subst current.
      now apply (laid_out_append chunks [] pieces (Sentence (strip sentence))).
Qed.

Lemma sentences_laid_out sentences st pieces :
  laid_out overlap st pieces ->
  laid_out overlap (fold_left (sentence_step chunk_size overlap) sentences st)
           (pieces
              ++ List.map Sentence (filter truthy (List.map strip sentences))).
Proof.
  revert st pieces. induction sentences as [|x sentences IH]; intros st pieces H.
  - cbn. now rewrite app_nil_r.
  - cbn [fold_left]. apply (sentence_step_laid_out _ _ x), IH in H.
    rewrite <- app_assoc, <- map_app in H.
    cbn [List.map filter] in *.
    destruct (truthy (strip x)); exact H.
Qed.

(** The chunks of a split paragraph carry its trimmed sentences. *)
Lemma split_long_paragraph_layout paragraph :
  exists layout,
    List.map render layout
      = _split_long_paragraph paragraph chunk_size overlap /\
    well_formed overlap None layout /\
    flat_map payload layout = List.map Sentence (trimmed_sentences paragraph) /\
    Forall solid layout.
Proof.
  apply laid_out_flushed.
  apply (sentences_laid_out (split_sentences paragraph) _ []), laid_out_init.
Qed.

End Layout.

Lemma take_while_all {A} (p : A -> bool) s :
  Forall (fun c => p c = true) (take_while p s).
Proof.
  induction s as [|c s IH]; cbn [take_while]; [constructor|].
  destruct (p c) eqn:E; now constructor.
Qed.

Lemma strip_nil_all_space s : strip s = [] -> all_space s.
Proof.
  intros H. unfold all_space.
  rewrite <- (take_drop_while is_space s). apply Forall_app.
  split; [apply take_while_all|].
  change (drop_while is_space s) with (lstrip s).
  destruct (rstrip_prefix (lstrip s)) as [post E].
  assert (post = rev (take_while is_space (rev (lstrip s)))) as Hpost.
  { unfold rstrip in E.
    rewrite <- (rev_involutive (lstrip s)) in E at 1.
    rewrite <- (take_drop_while is_space (rev (lstrip s))) in E at 1.
    rewrite rev_app_distr in E. now apply app_inv_head in E. }
  unfold strip in H. rewrite H in E. cbn [app] in E. rewrite E, Hpost.
  apply Forall_rev, take_while_all.
Qed.

Lemma all_blank_concat sentences :
  filter truthy (List.map strip sentences) = [] -> all_space (concat sentences).
Proof.
  induction sentences as [|x sentences IH]; cbn [List.map filter concat].
  - constructor.
  - destruct (truthy (strip x)) eqn:E; [discriminate|]. intros H.
    apply Forall_app. split; [|now apply IH].
    now apply strip_nil_all_space, truthy_false.
Qed.

(** A paragraph with some text has a sentence with some text. *)
Lemma trimmed_sentences_nonempty paragraph :
  paragraph <> [] -> trimmed paragraph -> trimmed_sentences paragraph <> [].
Proof.
  intros Hne [Hclean _] H. unfold trimmed_sentences in H.
  apply all_blank_concat in H. unfold split_sentences in H.
  rewrite attach_delimiters_pair_up, pair_up_concat, re_split_concat in H.
  destruct paragraph as [|c s]; [congruence|].
  inversion H as [|? ? Hc _]; subst. cbn [starts_clean] in Hclean. congruence.
Qed.

Lemma covers_app chunk_size ps qs ps' qs' :
  covers chunk_size ps qs -> covers chunk_size ps' qs' ->
  covers chunk_size (ps ++ ps') (qs ++ qs').
Proof.
  intros H H'. induction H as [|p ps qs _ IH|p ps qs Hlen _ IH]; cbn [app].
  - exact H'.
  - now constructor.
  - rewrite <- app_assoc. now constructor.
Qed.

Lemma map_removelast {A B} (f : A -> B) l :
  List.map f (removelast l) = removelast (List.map f l).
Proof.
  induction l as [|x l IH]; [reflexivity|].
  cbn [removelast List.map]. destruct l; [reflexivity|].
  cbn [List.map] in *. now rewrite IH.
Qed.

Lemma render_last layout :
  render (last layout []) = last (List.map render layout) [].
Proof.
  induction layout as [|c layout IH]; [reflexivity|].
  cbn [last List.map]. destruct layout; [reflexivity | exact IH].
Qed.

Section ParagraphLayout.

Variables chunk_size overlap : Z.

Lemma paragraph_step_laid_out st pieces paragraph :
  laid_out overlap st pieces ->
  exists added,
    laid_out overlap (paragraph_step chunk_size overlap st paragraph)
             (pieces ++ added) /\
    covers chunk_size (filter truthy [strip paragraph]) added.
Proof.
  destruct st as [chunks current]. intros H.
  unfold paragraph_step. cbn [filter].
  destruct (truthy (strip paragraph)) eqn:Es; cbn [negb].
  2:{ exists []. rewrite app_nil_r. split; [exact H | constructor]. }
  apply truthy_nonempty in Es.
  assert (covers chunk_size [strip paragraph] [Paragraph (strip paragraph)])
    as Hwhole by (repeat constructor).
  destruct (_ <=? chunk_size)%Z.
  { exists [Paragraph (strip paragraph)]. split; [|exact Hwhole].
    rewrite pair_if.
    now apply (laid_out_append overlap chunks current pieces
                 (Paragraph (strip paragraph))). }
  destruct (truthy current) eqn:Ec.
  { exists [Paragraph (strip paragraph)]. split; [|exact Hwhole].
    now apply (laid_out_flush overlap chunks current pieces
                 (Paragraph (strip paragraph))). }
  apply truthy_false in Ec. subst current.
  destruct (_ >? chunk_size)%Z eqn:Elong.
  2:{ exists [Paragraph (strip paragraph)]. split; [|exact Hwhole].
      now apply (laid_out_append overlap chunks [] pieces
                   (Paragraph (strip paragraph))). }
  apply Z.gtb_lt in Elong.
  destruct (split_long_paragraph_layout chunk_size overlap (strip paragraph))
    as (layout & Hrender & Hwf & Hpay & Hsolid).
  exists (List.map Sentence (trimmed_sentences (strip paragraph)) ++ []).
  split; [|constructor; [lia | constructor]].
  rewrite app_nil_r, <- Hrender.
  destruct layout as [|c layout'] eqn:Elayout.
  { exfalso. cbn [flat_map] in Hpay. symmetry in Hpay.
    apply map_eq_nil in Hpay.
    now apply (trimmed_sentences_nonempty (strip paragraph) Es (strip_trimmed _)). }
  rewrite <- Elayout in *.
  assert (layout <> []) as Hne by (rewrite Elayout; discriminate).
  replace (truthy (List.map render layout)) with true
    by (rewrite Elayout; reflexivity).
  destruct H as (done & cur & Hdone & Hcur & Hsd & Hsc & Hwfd & Hpd).
  cbn [fst snd] in *.
  assert (cur = []) as ->.
  { apply truthy_false. now rewrite <- (truthy_render cur Hsc), Hcur. }
  apply well_formed_app in Hwfd as [Hwfd _].
  rewrite flat_map_payload_snoc in Hpd. cbn [payload filter] in Hpd.
  rewrite app_nil_r in Hpd.
  exists (done ++ removelast layout), (last layout []). cbn [fst snd].
  split; [|split; [|split; [|split; [|split]]]].
  - now rewrite map_app, Hdone, map_removelast.
  - apply render_last.
  - apply Forall_app. split; [exact Hsd | now apply Forall_removelast].
  - now apply Forall_last.
  - rewrite <- app_assoc, <- app_removelast_last by exact Hne.
    apply well_formed_app. split; [exact Hwfd | now apply well_formed_None].
  - rewrite <- app_assoc, <- app_removelast_last by exact Hne.
    now rewrite flat_map_app, Hpd, Hpay.
Qed.

Lemma paragraphs_laid_out paragraphs st pieces seen :
  laid_out overlap st pieces -> covers chunk_size seen pieces ->
  exists pieces',
    laid_out overlap
             (fold_left (paragraph_step chunk_size overlap) paragraphs st)
             pieces' /\
    covers chunk_size (seen ++ filter truthy (List.map strip paragraphs))
           pieces'.
Proof.
  revert st pieces seen.
  induction paragraphs as [|x paragraphs IH]; intros st pieces seen H Hc.
  - exists pieces. cbn. rewrite app_nil_r. now split.
  - cbn [fold_left].
    destruct (paragraph_step_laid_out st pieces x H) as (added & H1 & H2).
    destruct (IH _ _ (seen ++ filter truthy [strip x]) H1
                 (covers_app _ _ _ _ _ Hc H2)) as (pieces' & H3 & H4).
    exists pieces'. split; [exact H3|].
    rewrite <- app_assoc in H4. cbn [List.map filter app] in *.
    destruct (truthy (strip x)); exact H4.
Qed.

End ParagraphLayout.

(** C1, amended. The chunks assembled by [_chunk_text] before the final
    length filter, taken in order and without their overlap fragments,
    give back all non-blank paragraphs of the input: each chunk is a
    sequence of pieces joined by the separators of the code, an overlap
    fragment stands only at the head of a chunk and is the overlap text of
    the chunk before, and the other pieces are, in order, the trimmed
    paragraphs, a paragraph that was split standing as its trimmed
    sentences. No assembled chunk is empty. The chunks returned are the
    assembled chunks of at least 50 characters, so none of them is empty
    either. *)
Theorem assembled_chunks_reconstruct_paragraphs
    (text : str) (chunk_size overlap : Z) :
  reconstructs chunk_size overlap
    (assemble_chunks text chunk_size overlap) (nonblank_paragraphs text)
  /\ Forall (fun chunk => chunk <> [])
            (assemble_chunks text chunk_size overlap)
  /\ _chunk_text text chunk_size overlap
       = filter long_enough (assemble_chunks text chunk_size overlap)
  /\ Forall (fun chunk => chunk <> [])
            (_chunk_text text chunk_size overlap).
Proof.
  assert (Forall (fun chunk => chunk <> [])
                 (assemble_chunks text chunk_size overlap)) as Hne.
  { eapply Forall_impl; [|apply assemble_chunks_good].
    intros chunk [H _]. exact H. }
  split; [|split; [exact Hne | split; [reflexivity|]]].
  - destruct (paragraphs_laid_out chunk_size overlap (split_nlnl text)
                ([], []) [] [] (laid_out_init overlap)
                (covers_nil chunk_size))
      as (pieces & Hlaid & Hcovers).
    destruct (laid_out_flushed overlap _ _ Hlaid)
      as (layout & Hrender & Hwf & Hpay & _).
    exists layout. split; [exact Hrender|]. split; [exact Hwf|].
    rewrite Hpay. exact Hcovers.
  - unfold _chunk_text. apply Forall_forall. intros chunk H.
    apply filter_In in H as [H _].
    now apply (proj1 (Forall_forall _ _) Hne).
Qed.

(** * Further properties of the code *)

(** ** The overlap extractor at any size *)

Lemma is_substring_length t s : is_substring t s -> (len t <= len s)%Z.
Proof.
  intros (pre & post & ->). unfold len. rewrite !length_app. lia.
Qed.

Lemma is_substring_in_suffix u t s :
  is_substring u t -> is_suffix t s -> is_substring u s.
Proof.
  intros (l & r & ->) [pre ->]. exists (pre ++ l), r.
  now rewrite <- app_assoc.
Qed.

(** For every integer [overlap_size], positive or not, the overlap text is
    cut out of [text]: it is a contiguous substring of it, hence no longer,
    and it is [text] itself or carries no surrounding whitespace. *)
Theorem get_overlap_text_within_text (text : str) (overlap_size : Z) :
  is_substring (_get_overlap_text text overlap_size) text /\
  (len (_get_overlap_text text overlap_size) <= len text)%Z /\
  (_get_overlap_text text overlap_size = text \/
   strip (_get_overlap_text text overlap_size)
     = _get_overlap_text text overlap_size).
Proof.
  assert (is_substring (_get_overlap_text text overlap_size) text /\
          (_get_overlap_text text overlap_size = text \/
           strip (_get_overlap_text text overlap_size)
             = _get_overlap_text text overlap_size)) as [H1 H2].
  { destruct (get_overlap_text_cases text overlap_size)
      as [-> | (t & Ht & _ & ->)].
    - split; [apply is_suffix_substring, is_suffix_refl | now left].
    - split; [|right; apply trimmed_strip, strip_trimmed].
      apply is_substring_in_suffix with t; [apply strip_substring|].
      eapply is_suffix_trans; [exact Ht | apply slice_from_suffix]. }
  split; [exact H1|]. split; [now apply is_substring_length | exact H2].
Qed.

Lemma fold_overlap_step_no_marker window markers best_start :
  (forall d, In d markers -> find window d = (-1)%Z) ->
  fold_left (overlap_step window) markers best_start = best_start.
Proof.
  revert best_start. induction markers as [|d markers IH]; intros b H.
  - reflexivity.
  - cbn [fold_left]. unfold overlap_step at 2.
    rewrite (H d (or_introl eq_refl)). cbn [Z.eqb negb andb].
    apply IH. intros d' Hd'. apply H. now right.
Qed.

(** A size of [0] does not switch the overlap off: for a non-empty trimmed
    text in which no sentence marker occurs, the overlap text is the whole
    text. *)
Theorem get_overlap_text_zero_is_whole_text (text : str) :
  text <> [] -> trimmed text ->
  (forall d, In d sentence_starts -> find text d = (-1)%Z) ->
  _get_overlap_text text 0 = text.
Proof.
  intros Hne Htrim Hnone. unfold _get_overlap_text.
  replace (len text <=? 0)%Z with false.
  2:{ symmetry. apply Z.leb_gt. destruct text; [congruence|].
      unfold len. cbn [length]. lia. }
  change (slice_from text (- 0)) with text.
  rewrite (fold_overlap_step_no_marker text sentence_starts 0 Hnone).
  cbn [Z.gtb Z.compare]. now apply trimmed_strip.
Qed.

Lemma get_overlap_text_zero_is_whole_text_witness :
  _get_overlap_text (lit "no marker here") 0 = lit "no marker here".
Proof.
  apply get_overlap_text_zero_is_whole_text.
  - discriminate.
  - split; reflexivity.
  - intros d Hd. simpl in Hd.
    destruct Hd as [<-|[<-|[<-|[<-|[]]]]]; reflexivity.
Defined.

(** ** Paragraphs without a sentence break *)

Lemma skipn_take_while {A} (p : A -> bool) s :
  skipn (length (take_while p s)) s = drop_while p s.
Proof.
  induction s as [|c s IH]; [reflexivity|]. cbn [take_while drop_while].
  destruct (p c); [exact IH | reflexivity].
Qed.

(** A match of [[.!?]+\s+] shows a punctuation character followed by a
    whitespace character. *)
Lemma match_delim_break s n :
  match_delim s = Some n ->
  exists pre c d post,
    s = pre ++ c :: d :: post /\ is_punct c = true /\ is_space d = true.
Proof.
  rewrite match_delim_longest. cbv zeta. rewrite skipn_take_while.
  pose proof (take_drop_while is_punct s) as Hs.
  pose proof (take_while_all is_punct s) as Hall.
  destruct (take_while is_punct s) as [|a0 run0]; [discriminate|].
  destruct (@exists_last _ (a0 :: run0)) as (run & a & E); [discriminate|].
  rewrite E in *. clear E a0 run0.
  destruct (drop_while is_punct s) as [|d post]; [now rewrite andb_false_r|].
  cbn [take_while]. destruct (is_space d) eqn:Ed; [|now rewrite andb_false_r].
  intros _. exists run, a, d, post. split; [|split; [|exact Ed]].
  - rewrite <- Hs, <- app_assoc. reflexivity.
  - apply Forall_app in Hall as [_ Hall]. now inversion Hall.
Qed.

Lemma re_search_break s i n :
  re_search s = Some (i, n) ->
  exists pre c d post,
    s = pre ++ c :: d :: post /\ is_punct c = true /\ is_space d = true.
Proof.
  revert i n. induction s as [|a s IH]; intros i n H; cbn [re_search] in H.
  - destruct (match_delim []) eqn:E; [|discriminate].
    now apply match_delim_break in E.
  - destruct (match_delim (a :: s)) eqn:E.
    + now apply match_delim_break in E.
    + destruct (re_search s) as [[j m]|]; [|discriminate].
      destruct (IH j m eq_refl) as (pre & c & d & post & -> & Hc & Hd).
      exists (a :: pre), c, d, post. now repeat split.
Qed.

Lemma no_sentence_break_one_sentence paragraph :
  no_sentence_break paragraph -> split_sentences paragraph = [paragraph].
Proof.
  intros H. unfold split_sentences. rewrite re_split_eq.
  destruct (re_search paragraph) as [[i n]|] eqn:E; [|reflexivity].
  apply re_search_break in E as (pre & c & d & post & Hs & Hc & Hd).
  rewrite (H _ _ _ _ Hs Hc) in Hd. discriminate.
Qed.

Lemma split_long_paragraph_one_sentence paragraph chunk_size overlap :
  no_sentence_break paragraph -> strip paragraph <> [] ->
  _split_long_paragraph paragraph chunk_size overlap = [strip paragraph].
Proof.
  intros H Hne. unfold _split_long_paragraph.
  rewrite (no_sentence_break_one_sentence _ H). cbn [fold_left].
  unfold sentence_step. rewrite (truthy_true _ Hne). cbn [negb truthy].
  destruct (_ <=? chunk_size)%Z; unfold flush; now rewrite (truthy_true _ Hne).
Qed.

(** A paragraph in which no [.], [!] or [?] is followed by whitespace is
    one sentence, and [_split_long_paragraph] returns it whole, trimmed,
    as the only chunk, whatever the chunk size. *)
Theorem split_long_paragraph_without_break
    (paragraph : str) (chunk_size overlap : Z) :
  no_sentence_break paragraph -> strip paragraph <> [] ->
  split_sentences paragraph = [paragraph] /\
  _split_long_paragraph paragraph chunk_size overlap = [strip paragraph].
Proof.
  intros H Hne. split.
  - now apply no_sentence_break_one_sentence.
  - now apply split_long_paragraph_one_sentence.
Qed.

Lemma break_free_sound s : break_free s = true -> no_sentence_break s.
Proof.
  induction s as [|a s IH]; intros H pre c d post E Hc.
  - destruct pre; discriminate E.
  - destruct pre as [|b pre]; cbn [app] in E.
    + injection E as -> ->. cbn [break_free] in H. rewrite Hc in H.
      cbn [andb] in H. apply andb_true_iff in H as [H _].
      now apply negb_true_iff in H.
    + injection E as -> E.
      assert (break_free s = true) as Hs.
      { cbn [break_free] in H. destruct s as [|x s]; [reflexivity|].
        now apply andb_true_iff in H as [_ H]. }
      exact (IH Hs pre c d post E Hc).
Qed.

Lemma split_long_paragraph_without_break_witness :
  _split_long_paragraph (lit "version 3.14 of the tool") 10 3
  = [lit "version 3.14 of the tool"].
Proof.
  apply (split_long_paragraph_without_break (lit "version 3.14 of the tool")).
  - apply break_free_sound. reflexivity.
  - discriminate.
Defined.

(** ** Chunks are trimmed *)

(** No chunk returned by [_chunk_text] or by [_split_long_paragraph]
    starts or ends with whitespace: stripping a chunk leaves it as it is,
    and a chunk of [_split_long_paragraph] is not empty. *)
Theorem chunks_are_stripped
    (text paragraph : str) (chunk_size overlap : Z) :
  Forall (fun chunk => strip chunk = chunk)
         (_chunk_text text chunk_size overlap) /\
  Forall (fun chunk => chunk <> [] /\ strip chunk = chunk)
         (_split_long_paragraph paragraph chunk_size overlap).
Proof.
  split.
  - apply Forall_forall. intros chunk H. unfold _chunk_text in H.
    apply filter_In in H as [H _].
    pose proof (assemble_chunks_good text chunk_size overlap) as G.
    apply (proj1 (Forall_forall _ _) G) in H as [_ H].
    now apply trimmed_strip.
  - eapply Forall_impl; [|apply split_long_paragraph_good].
    intros chunk [H1 H2]. split; [exact H1 | now apply trimmed_strip].
Qed.

(** ** The size of a chunk *)

Lemma len_app (a b : str) : len (a ++ b) = (len a + len b)%Z.
Proof. unfold len. rewrite length_app. lia. Qed.

Lemma len_nonneg (s : str) : (0 <= len s)%Z.
Proof. unfold len. lia. Qed.

Lemma longest_nonneg l : (0 <= longest l)%Z.
Proof.
  unfold longest. induction l as [|x l IH]; cbn [List.map fold_right]; lia.
Qed.

Lemma longest_ge l x : In x l -> (len x <= longest l)%Z.
Proof.
  unfold longest. induction l as [|y l IH]; cbn [List.map fold_right In].
  - contradiction.
  - intros [-> | H]; [lia|]. specialize (IH H). lia.
Qed.

Lemma get_overlap_text_length text overlap_size :
  (1 <= overlap_size)%Z ->
  (len (_get_overlap_text text overlap_size) <= overlap_size)%Z.
Proof.
  intros Hk. unfold _get_overlap_text.
  destruct (len text <=? overlap_size)%Z eqn:E; [now apply Z.leb_le|].
  apply Z.leb_gt in E.
  pose proof (slice_from_neg_length text overlap_size Hk E) as L.
  set (window := slice_from text (- overlap_size)) in *.
  destruct (_ >? 0)%Z.
  - pose proof (strip_length (slice_from window
                  (fold_left (overlap_step window) sentence_starts 0%Z))).
    pose proof (is_suffix_length _ _
                  (slice_from_suffix window
                     (fold_left (overlap_step window) sentence_starts 0%Z))).
    unfold len. lia.
  - pose proof (strip_length window). unfold len. lia.
Qed.

Lemma within_init bound : (0 <= bound)%Z -> within bound ([], []).
Proof. intros H. split; [constructor | exact H]. Qed.

Lemma within_flush bound st :
  within bound st -> Forall (fun chunk => (len chunk <= bound)%Z) (flush st).
Proof.
  destruct st as [chunks current]. intros [H1 H2]. cbn [fst snd] in *.
  unfold flush. destruct (truthy current); [|exact H1].
  apply Forall_app. split; [exact H1 | now repeat constructor].
Qed.

Lemma sentence_step_within chunk_size overlap most bound st sentence :
  (1 <= overlap)%Z ->
  (chunk_size <= bound)%Z -> (overlap + 1 + most <= bound)%Z ->
  (len (strip sentence) <= most)%Z ->
  within bound st ->
  within bound (sentence_step chunk_size overlap st sentence).
Proof.
  intros Hov Hcs Hb Hs. destruct st as [chunks current]. intros [H1 H2].
  cbn [fst snd] in *. unfold sentence_step.
  pose proof (get_overlap_text_length current overlap Hov) as Ho.
  pose proof (len_nonneg (_get_overlap_text current overlap)).
  destruct (truthy (strip sentence)); cbn [negb]; [|now split].
  destruct (_ <=? chunk_size)%Z eqn:E.
  - apply Z.leb_le in E.
    destruct (truthy current); split; cbn [fst snd]; try exact H1.
    + rewrite !len_app. change (len (lit " ")) with 1%Z. lia.
    + lia.
  - destruct (truthy current); split; cbn [fst snd]; try exact H1; try lia.
    + apply Forall_app. split; [exact H1 | now repeat constructor].
    + destruct (truthy _); [|lia].
      rewrite !len_app. change (len (lit " ")) with 1%Z. lia.
Qed.

Lemma sentences_within chunk_size overlap most bound sentences st :
  (1 <= overlap)%Z ->
  (chunk_size <= bound)%Z -> (overlap + 1 + most <= bound)%Z ->
  Forall (fun s => (len (strip s) <= most)%Z) sentences ->
  within bound st ->
  within bound (fold_left (sentence_step chunk_size overlap) sentences st).
Proof.
  intros Hov Hcs Hb Hall. revert st.
  induction Hall as [|x sentences Hx _ IH]; intros st H; [exact H|].
  cbn [fold_left]. apply IH. now apply (sentence_step_within _ _ most).
Qed.

Lemma strip_len s : (len (strip s) <= len s)%Z.
Proof. pose proof (strip_length s). unfold len. lia. Qed.

Lemma stripped_sentences_bounded sentences :
  Forall (fun s => (len (strip s)
                    <= longest (filter truthy (List.map strip sentences)))%Z)
         sentences.
Proof.
  apply Forall_forall. intros s Hs.
  destruct (truthy (strip s)) eqn:E.
  - apply longest_ge, filter_In. split; [|exact E]. now apply in_map.
  - apply truthy_false in E. rewrite E.
    change (len []) with 0%Z. apply longest_nonneg.
Qed.

Lemma split_long_paragraph_within paragraph chunk_size overlap :
  (1 <= overlap)%Z ->
  Forall (fun chunk =>
            (len chunk <= Z.max chunk_size
                            (overlap + 1 + longest (trimmed_sentences paragraph)))%Z)
         (_split_long_paragraph paragraph chunk_size overlap).
Proof.
  intros Hov. apply within_flush.
  pose proof (longest_nonneg (trimmed_sentences paragraph)).
  apply (sentences_within _ _ (longest (trimmed_sentences paragraph)));
    try lia.
  - apply stripped_sentences_bounded.
  - apply within_init. lia.
Qed.

(** With [overlap >= 1], a chunk of [_split_long_paragraph] has at most
    [chunk_size] characters, or at most [overlap + 1] characters more than
    the longest trimmed sentence of the paragraph. *)
Theorem split_long_paragraph_chunk_size
    (paragraph : str) (chunk_size overlap : Z) :
  (1 <= overlap)%Z ->
  Forall (fun chunk =>
            (len chunk <= chunk_size)%Z \/
            (len chunk
             <= overlap + 1 + longest (trimmed_sentences paragraph))%Z)
         (_split_long_paragraph paragraph chunk_size overlap).
Proof.
  intros Hov. eapply Forall_impl; [|now apply split_long_paragraph_within].
  intros chunk H. cbv beta in H. lia.
Qed.

Lemma split_long_paragraph_chunk_size_witness :
  Forall (fun chunk =>
            (len chunk <= 12)%Z \/
            (len chunk <= 5 + 1 + longest (trimmed_sentences
                        (lit "Hi there.  How are you?! Fine... ok")))%Z)
         (_split_long_paragraph (lit "Hi there.  How are you?! Fine... ok")
                                12 5).
Proof.
  apply (split_long_paragraph_chunk_size
           (lit "Hi there.  How are you?! Fine... ok") 12 5).
  lia.
Defined.

Lemma longest_le l bound :
  (0 <= bound)%Z -> Forall (fun x => (len x <= bound)%Z) l ->
  (longest l <= bound)%Z.
Proof.
  intros Hb H. unfold longest.
  induction H as [|x l Hx _ IH]; cbn [List.map fold_right]; lia.
Qed.

Lemma in_concat_len (s : str) l : In s l -> (len s <= len (concat l))%Z.
Proof.
  induction l as [|x l IH]; cbn [In concat]; [contradiction|].
  rewrite len_app. pose proof (len_nonneg x). pose proof (len_nonneg (concat l)).
  intros [-> | Hin]; [lia|]. specialize (IH Hin). lia.
Qed.

Lemma split_sentences_join paragraph :
  concat (split_sentences paragraph) = paragraph.
Proof.
  unfold split_sentences.
  rewrite attach_delimiters_pair_up, pair_up_concat. apply re_split_concat.
Qed.

(** No trimmed sentence is longer than its paragraph. *)
Lemma trimmed_sentences_longest paragraph :
  (longest (trimmed_sentences paragraph) <= len paragraph)%Z.
Proof.
  apply longest_le; [apply len_nonneg|].
  apply Forall_forall. intros s Hs. unfold trimmed_sentences in Hs.
  apply filter_In in Hs as [Hs _]. apply in_map_iff in Hs as (x & <- & Hx).
  apply in_concat_len in Hx. rewrite split_sentences_join in Hx.
  pose proof (strip_len x). lia.
Qed.

Lemma paragraph_step_within chunk_size overlap most bound st paragraph :
  (1 <= overlap)%Z ->
  (chunk_size <= bound)%Z -> (overlap + 2 + most <= bound)%Z ->
  (len (strip paragraph) <= most)%Z ->
  within bound st ->
  within bound (paragraph_step chunk_size overlap st paragraph).
Proof.
  intros Hov Hcs Hb Hp. destruct st as [chunks current]. intros [H1 H2].
  cbn [fst snd] in *. unfold paragraph_step.
  pose proof (get_overlap_text_length current overlap Hov) as Ho.
  pose proof (len_nonneg (_get_overlap_text current overlap)).
  destruct (truthy (strip paragraph)); cbn [negb]; [|now split].
  destruct (_ <=? chunk_size)%Z eqn:E.
  { apply Z.leb_le in E.
    destruct (truthy current); split; cbn [fst snd]; try exact H1.
    - rewrite !len_app. change (len [NL; NL]) with 2%Z. lia.
    - lia. }
  destruct (truthy current).
  { split; cbn [fst snd].
    - apply Forall_app. split; [exact H1 | now repeat constructor].
    - destruct (truthy _); [|lia].
      rewrite !len_app. change (len [NL; NL]) with 2%Z. lia. }
  destruct (_ >? chunk_size)%Z; [|split; cbn [fst snd]; [exact H1 | lia]].
  assert (Forall (fun chunk => (len chunk <= bound)%Z)
                 (_split_long_paragraph (strip paragraph) chunk_size overlap))
    as Hsplit.
  { eapply Forall_impl; [|apply (split_long_paragraph_within _ _ _ Hov)].
    intros chunk H'. cbv beta in H'.
    pose proof (trimmed_sentences_longest (strip paragraph)). lia. }
  destruct (truthy (_split_long_paragraph _ _ _)) eqn:Et; [|now split].
  apply truthy_nonempty in Et. split; cbn [fst snd].
  - apply Forall_app. split; [exact H1 | now apply Forall_removelast].
  - now apply (Forall_last (fun chunk => (len chunk <= bound)%Z) _ [] Et).
Qed.

Lemma stripped_paragraphs_bounded paragraphs :
  Forall (fun p => (len (strip p)
                    <= longest (filter truthy (List.map strip paragraphs)))%Z)
         paragraphs.
Proof. apply stripped_sentences_bounded. Qed.

Lemma assemble_chunks_within text chunk_size overlap bound :
  (1 <= overlap)%Z ->
  (chunk_size <= bound)%Z ->
  (overlap + 2 + longest (nonblank_paragraphs text) <= bound)%Z ->
  Forall (fun chunk => (len chunk <= bound)%Z)
         (assemble_chunks text chunk_size overlap).
Proof.
  intros Hov Hcs Hb. apply within_flush.
  pose proof (longest_nonneg (nonblank_paragraphs text)) as Hl.
  assert (forall paragraphs st,
            Forall (fun p => (len (strip p)
                              <= longest (nonblank_paragraphs text))%Z)
                   paragraphs ->
            within bound st ->
            within bound
              (fold_left (paragraph_step chunk_size overlap) paragraphs st))
    as Hfold.
  { intros paragraphs st Hall. revert st.
    induction Hall as [|x paragraphs Hx _ IH]; intros st H; [exact H|].
    cbn [fold_left]. apply IH.
    now apply (paragraph_step_within _ _ (longest (nonblank_paragraphs text))). }
  apply Hfold; [apply stripped_paragraphs_bounded | apply within_init; lia].
Qed.

(** With [overlap >= 1], a chunk returned by [_chunk_text] has at most
    [chunk_size] characters, or at most [overlap + 2] characters more than
    the longest trimmed paragraph of the text. *)
Theorem chunk_text_chunk_size (text : str) (chunk_size overlap : Z) :
  (1 <= overlap)%Z ->
  Forall (fun chunk =>
            (len chunk <= chunk_size)%Z \/
            (len chunk <= overlap + 2 + longest (nonblank_paragraphs text))%Z)
         (_chunk_text text chunk_size overlap).
Proof.
  intros Hov. apply Forall_forall. intros chunk H.
  unfold _chunk_text in H. apply filter_In in H as [H _].
  pose proof (assemble_chunks_within text chunk_size overlap
                (Z.max chunk_size
                   (overlap + 2 + longest (nonblank_paragraphs text)))
                Hov ltac:(lia) ltac:(lia)) as Hall.
  apply (proj1 (Forall_forall _ _) Hall) in H. cbv beta in H. lia.
Qed.

Lemma chunk_text_chunk_size_witness :
  Forall (fun chunk =>
            (len chunk <= 500)%Z \/
            (len chunk
             <= 100 + 2 + longest (nonblank_paragraphs two_paragraphs_300))%Z)
         (_chunk_text two_paragraphs_300 500 100).
Proof.
  apply (chunk_text_chunk_size two_paragraphs_300 500 100). lia.
Defined.

(** ** The number of chunks *)

Lemma fold_left_seen {S A} (I : list A -> S -> Prop)
    (step : S -> A -> S) (init : S) (items : list A) :
  I [] init ->
  (forall seen st x, I seen st -> I (seen ++ [x]) (step st x)) ->
  I items (fold_left step items init).
Proof.
  intros Hinit Hstep.
  assert (forall seen st, I seen st ->
            I (seen ++ items) (fold_left step items st)) as H.
  { induction items as [|x items IH]; intros seen st Hst.
    - now rewrite app_nil_r.
    - cbn [fold_left]. replace (seen ++ x :: items) with ((seen ++ [x]) ++ items)
        by now rewrite <- app_assoc.
      apply IH, Hstep, Hst. }
  apply (H [] init Hinit).
Qed.

Lemma count_nonblank_snoc seen x :
  count_nonblank (seen ++ [x])
  = (count_nonblank seen + if truthy (strip x) then 1 else 0)%nat.
Proof.
  unfold count_nonblank. rewrite map_app, filter_app, length_app.
  cbn [List.map filter]. now destruct (truthy (strip x)).
Qed.

Lemma flush_length st :
  length (flush st)
  = (length (fst st) + if truthy (snd st) then 1 else 0)%nat.
Proof.
  destruct st as [chunks current]. unfold flush. cbn [fst snd].
  destruct (truthy current); [|lia]. rewrite length_app. reflexivity.
Qed.

(** Each chunk of the sentence loop holds a sentence of its own. *)
Lemma sentence_loop_count chunk_size overlap sentences :
  let st := fold_left (sentence_step chunk_size overlap) sentences ([], []) in
  (length (flush st) <= count_nonblank sentences)%nat /\
  (count_nonblank sentences <> 0%nat -> snd st <> []).
Proof.
  apply (fold_left_seen
           (fun seen st =>
              (length (flush st) <= count_nonblank seen)%nat /\
              (count_nonblank seen <> 0%nat -> snd st <> []))).
  - split; [cbn; lia | intros H; now contradiction H].
  - intros seen [chunks current] x [H1 H2].
    rewrite count_nonblank_snoc. rewrite flush_length in *. cbn [fst snd] in *.
    unfold sentence_step.
    destruct (truthy (strip x)) eqn:Es; cbn [negb].
    2:{ rewrite Nat.add_0_r. cbn [fst snd]. now split. }
    apply truthy_nonempty in Es.
    assert (forall a b : str, a ++ b ++ strip x <> []) as Hne.
    { intros a b E. apply app_eq_nil in E as [_ E].
      now apply app_eq_nil in E as [_ E]. }
    destruct (_ <=? chunk_size)%Z.
    + destruct (truthy current) eqn:Ec; cbn [fst snd]; split;
        try (intros _; auto).
      * rewrite (truthy_true _ (Hne _ _)). lia.
      * rewrite (truthy_true _ Es). lia.
    + destruct (truthy current) eqn:Ec; cbn [fst snd]; split;
        try (intros _).
      * rewrite length_app. cbn [length].
        destruct (truthy (_get_overlap_text current overlap));
          [rewrite (truthy_true _ (Hne _ _)) | rewrite (truthy_true _ Es)]; lia.
      * destruct (truthy (_get_overlap_text current overlap)); auto.
      * rewrite (truthy_true _ Es). lia.
      * exact Es.
Qed.

(** [_split_long_paragraph] makes at most one chunk per non-blank
    sentence, and at least one chunk when the paragraph has a non-blank
    sentence. *)
Theorem split_long_paragraph_count
    (paragraph : str) (chunk_size overlap : Z) :
  (length (_split_long_paragraph paragraph chunk_size overlap)
   <= length (trimmed_sentences paragraph))%nat /\
  (trimmed_sentences paragraph <> [] ->
   _split_long_paragraph paragraph chunk_size overlap <> []).
Proof.
  destruct (sentence_loop_count chunk_size overlap (split_sentences paragraph))
    as [H1 H2].
  split; [exact H1|]. intros Hne.
  unfold _split_long_paragraph.
  destruct (fold_left _ _ _) as [chunks current]. cbn [snd] in H2.
  unfold flush. rewrite truthy_true.
  - intros E. now apply app_eq_nil in E as [_ E].
  - apply H2. unfold count_nonblank. fold (trimmed_sentences paragraph).
    destruct (trimmed_sentences paragraph); [congruence | discriminate].
Qed.

Lemma split_long_paragraph_count_witness :
  _split_long_paragraph (lit "Hi there.  How are you?! Fine... ok") 12 5
  <> [].
Proof.
  apply (split_long_paragraph_count
           (lit "Hi there.  How are you?! Fine... ok") 12 5).
  vm_compute. discriminate.
Defined.

(** ** Only the first paragraph is ever split *)

Lemma split_long_paragraph_nonempty paragraph chunk_size overlap :
  paragraph <> [] -> trimmed paragraph ->
  _split_long_paragraph paragraph chunk_size overlap <> [].
Proof.
  intros Hne Htrim.
  destruct (sentence_loop_count chunk_size overlap (split_sentences paragraph))
    as [_ H].
  unfold _split_long_paragraph.
  destruct (fold_left _ _ _) as [chunks current]. cbn [snd] in H.
  unfold flush. rewrite truthy_true.
  - intros E. now apply app_eq_nil in E as [_ E].
  - apply H. unfold count_nonblank. fold (trimmed_sentences paragraph).
    pose proof (trimmed_sentences_nonempty paragraph Hne Htrim).
    destruct (trimmed_sentences paragraph); [congruence | discriminate].
Qed.

(** A non-blank paragraph leaves a non-empty current chunk. *)
Lemma paragraph_step_current chunk_size overlap st paragraph :
  strip paragraph <> [] ->
  snd (paragraph_step chunk_size overlap st paragraph) <> [].
Proof.
  intros Hne. destruct st as [chunks current]. unfold paragraph_step.
  rewrite (truthy_true _ Hne). cbn [negb].
  assert (forall a b : str, a ++ b ++ strip paragraph <> []) as Happ.
  { intros a b E. apply app_eq_nil in E as [_ E].
    now apply app_eq_nil in E as [_ E]. }
  destruct (_ <=? chunk_size)%Z.
  { destruct (truthy current); cbn [snd]; auto. }
  destruct (truthy current).
  { cbn [snd]. destruct (truthy _); auto. }
  destruct (_ >? chunk_size)%Z; [|exact Hne].
  pose proof (split_long_paragraph_nonempty (strip paragraph) chunk_size
                overlap Hne (strip_trimmed _)) as Hsplit.
  rewrite (truthy_true _ Hsplit). cbn [snd].
  pose proof (split_long_paragraph_good (strip paragraph) chunk_size overlap)
    as G.
  now apply (Forall_last good_chunk _ [] Hsplit G).
Qed.

Lemma paragraph_step_current_kept chunk_size overlap st paragraph :
  snd st <> [] -> snd (paragraph_step chunk_size overlap st paragraph) <> [].
Proof.
  intros Hcur. destruct (truthy (strip paragraph)) eqn:E.
  - now apply paragraph_step_current, truthy_nonempty.
  - rewrite paragraph_step_blank; [exact Hcur | now apply truthy_false].
Qed.

Lemma paragraph_loop_current chunk_size overlap paragraphs :
  count_nonblank paragraphs <> 0%nat ->
  snd (fold_left (paragraph_step chunk_size overlap) paragraphs ([], []))
  <> [].
Proof.
  apply (fold_left_seen
           (fun seen st => count_nonblank seen <> 0%nat -> snd st <> [])).
  - intros H. now contradiction H.
  - intros seen st x H. rewrite count_nonblank_snoc. intros Hn.
    destruct (truthy (strip x)) eqn:E.
    + now apply paragraph_step_current, truthy_nonempty.
    + apply paragraph_step_current_kept, H. lia.
Qed.

(** Once a non-blank paragraph has been seen the current chunk is never
    empty again, so a later paragraph is never handed to
    [_split_long_paragraph]: however long it is, it is appended whole,
    either to the current chunk or, behind the overlap text if there is
    one, to a new chunk that starts after the current one is closed. *)
Theorem later_paragraph_is_kept_whole
    (chunk_size overlap : Z) (before : list str) (paragraph : str) :
  count_nonblank before <> 0%nat ->
  strip paragraph <> [] ->
  let st := fold_left (paragraph_step chunk_size overlap) before ([], []) in
  let overlap_text := _get_overlap_text (snd st) overlap in
  snd st <> [] /\
  (paragraph_step chunk_size overlap st paragraph
     = (fst st, snd st ++ [NL; NL] ++ strip paragraph)
   \/
   paragraph_step chunk_size overlap st paragraph
     = (fst st ++ [snd st],
        if truthy overlap_text
        then overlap_text ++ [NL; NL] ++ strip paragraph
        else strip paragraph)).
Proof.
  intros Hseen Hne st overlap_text.
  pose proof (paragraph_loop_current chunk_size overlap before Hseen) as Hcur.
  fold st in Hcur. split; [exact Hcur|].
  destruct st as [chunks current]. cbn [fst snd] in *.
  destruct (Z_le_gt_dec (len current + len (strip paragraph) + 2) chunk_size)
    as [Hfit | Hbig].
  - left. rewrite paragraph_step_fits by assumption.
    now rewrite (truthy_true _ Hcur).
  - right. now apply paragraph_step_flush.
Qed.

Lemma later_paragraph_is_kept_whole_witness :
  paragraph_step 20 5 ([], lit "first") (repeat 97%N 60)
  = ([lit "first"], lit "first" ++ [NL; NL] ++ repeat 97%N 60).
Proof.
  destruct (later_paragraph_is_kept_whole 20 5 [lit "first"] (repeat 97%N 60))
    as [_ [H | H]].
  - vm_compute. discriminate.
  - vm_compute. discriminate.
  - vm_compute in H. discriminate H.
  - exact H.
Defined.

(** ** Texts that fit in one chunk *)

Lemma join_blank_lines_cons p q rest :
  join_blank_lines (p :: q :: rest)
  = p ++ [NL; NL] ++ join_blank_lines (q :: rest).
Proof. reflexivity. Qed.

Lemma join_blank_lines_truthy l :
  Forall (fun p : str => p <> []) l ->
  truthy (join_blank_lines l) = truthy l.
Proof.
  intros H. destruct H as [|p l Hp Hl]; [reflexivity|].
  destruct l as [|q l]; cbn [join_blank_lines truthy].
  - now apply truthy_true.
  - destruct p; [congruence | reflexivity].
Qed.

Lemma join_blank_lines_snoc l p :
  join_blank_lines (l ++ [p])
  = if truthy l then join_blank_lines l ++ [NL; NL] ++ p else p.
Proof.
  induction l as [|a l IH]; [reflexivity|].
  destruct l as [|b l]; [reflexivity|].
  change ((a :: b :: l) ++ [p]) with (a :: b :: (l ++ [p])).
  rewrite !join_blank_lines_cons.
  change (b :: l ++ [p]) with ((b :: l) ++ [p]). rewrite IH.
  cbn [truthy]. now rewrite <- !app_assoc.
Qed.

Lemma join_blank_lines_grows l1 l2 :
  (len (join_blank_lines l1) <= len (join_blank_lines (l1 ++ l2)))%Z.
Proof.
  induction l1 as [|a l1 IH]; [apply len_nonneg|].
  destruct l1 as [|b l1].
  - change (join_blank_lines [a]) with a.
    destruct l2 as [|c l2]; cbn [app].
    + change (join_blank_lines [a]) with a. lia.
    + rewrite join_blank_lines_cons, !len_app.
      pose proof (len_nonneg (join_blank_lines (c :: l2))).
      pose proof (len_nonneg [NL; NL]). lia.
  - change ((a :: b :: l1) ++ l2) with (a :: b :: (l1 ++ l2)).
    rewrite !join_blank_lines_cons, !len_app.
    change (b :: l1 ++ l2) with ((b :: l1) ++ l2). lia.
Qed.

Lemma app_cons_snoc {A} (l : list A) a r : l ++ a :: r = (l ++ [a]) ++ r.
Proof. now rewrite <- app_assoc. Qed.

Lemma fitting_paragraphs_fold chunk_size overlap paragraphs acc :
  Forall (fun p : str => p <> []) acc ->
  (len (join_blank_lines
          (acc ++ filter truthy (List.map strip paragraphs))) + 2
   <= chunk_size)%Z ->
  fold_left (paragraph_step chunk_size overlap) paragraphs
            ([], join_blank_lines acc)
  = ([], join_blank_lines
           (acc ++ filter truthy (List.map strip paragraphs))).
Proof.
  revert acc. induction paragraphs as [|x paragraphs IH]; intros acc Hacc Hfit.
  - cbn. now rewrite app_nil_r.
  - cbn [fold_left List.map filter] in *.
    destruct (truthy (strip x)) eqn:Ex.
    + apply truthy_nonempty in Ex.
      rewrite app_cons_snoc in Hfit |- *.
      pose proof (join_blank_lines_grows (acc ++ [strip x])
                    (filter truthy (List.map strip paragraphs))) as Hgrow.
      rewrite paragraph_step_fits; [|exact Ex|].
      * rewrite (join_blank_lines_truthy acc Hacc).
        rewrite <- join_blank_lines_snoc. apply IH; [|exact Hfit].
        apply Forall_app. split; [exact Hacc | now repeat constructor].
      * rewrite join_blank_lines_snoc in Hgrow.
        destruct (truthy acc) eqn:Eacc.
        -- rewrite !len_app in Hgrow. change (len [NL; NL]) with 2%Z in Hgrow.
           lia.
        -- apply truthy_false in Eacc. subst acc.
           change (len (join_blank_lines [])) with 0%Z. lia.
    + apply truthy_false in Ex. rewrite paragraph_step_blank by exact Ex.
      now apply IH.
Qed.

(** When the non-blank paragraphs of the text, trimmed and joined by
    blank lines, leave two characters of room in [chunk_size], they are
    assembled into that one chunk, and [_chunk_text] returns it if it has
    at least 50 characters and nothing otherwise. *)
Theorem fitting_text_is_one_chunk (text : str) (chunk_size overlap : Z) :
  nonblank_paragraphs text <> [] ->
  (len (join_blank_lines (nonblank_paragraphs text)) + 2 <= chunk_size)%Z ->
  assemble_chunks text chunk_size overlap
    = [join_blank_lines (nonblank_paragraphs text)] /\
  _chunk_text text chunk_size overlap
    = if (50 <=? len (join_blank_lines (nonblank_paragraphs text)))%Z
      then [join_blank_lines (nonblank_paragraphs text)]
      else [].
Proof.
  intros Hne Hfit.
  assert (assemble_chunks text chunk_size overlap
          = [join_blank_lines (nonblank_paragraphs text)]) as Hassemble.
  { unfold assemble_chunks.
    pose proof (fitting_paragraphs_fold chunk_size overlap (split_nlnl text) []
                  (Forall_nil _) Hfit) as Hfold.
    apply (f_equal flush) in Hfold. etransitivity; [exact Hfold|].
    cbn [app]. fold (nonblank_paragraphs text). unfold flush.
    rewrite join_blank_lines_truthy.
    - now rewrite (truthy_true _ Hne).
    - apply Forall_forall. intros p Hp. unfold nonblank_paragraphs in Hp.
      apply filter_In in Hp as [_ Hp]. now apply truthy_nonempty. }
  split; [exact Hassemble|].
  unfold _chunk_text. rewrite Hassemble. cbn [filter].
  unfold long_enough. now rewrite Z.geb_leb.
Qed.

Lemma fitting_text_is_one_chunk_witness :
  _chunk_text (repeat 97%N 200 ++ [NL; NL] ++ repeat 98%N 200) 500 100
  = [repeat 97%N 200 ++ [NL; NL] ++ repeat 98%N 200].
Proof.
  destruct (fitting_text_is_one_chunk
              (repeat 97%N 200 ++ [NL; NL] ++ repeat 98%N 200) 500 100)
    as [_ H].
  - vm_compute. discriminate.
  - vm_compute. discriminate.
  - rewrite H. vm_compute. reflexivity.
Defined.

(** A text without a non-blank paragraph gives no chunk. *)
Theorem blank_text_gives_no_chunk (text : str) (chunk_size overlap : Z) :
  nonblank_paragraphs text = [] ->
  assemble_chunks text chunk_size overlap = [] /\
  _chunk_text text chunk_size overlap = [].
Proof.
  intros Hblank.
  assert (forall paragraphs st,
            filter truthy (List.map strip paragraphs) = [] ->
            fold_left (paragraph_step chunk_size overlap) paragraphs st = st)
    as Hfold.
  { induction paragraphs as [|x paragraphs IH]; intros st H; [reflexivity|].
    cbn [fold_left List.map filter] in *.
    destruct (truthy (strip x)) eqn:Ex; [discriminate|].
    rewrite paragraph_step_blank by now apply truthy_false.
    now apply IH. }
  assert (assemble_chunks text chunk_size overlap = []) as H.
  { unfold assemble_chunks. now rewrite Hfold. }
  split; [exact H|]. unfold _chunk_text. now rewrite H.
Qed.

Lemma blank_text_gives_no_chunk_witness :
  _chunk_text (lit "  " ++ [NL; NL; NL] ++ lit " ") 500 100 = [].
Proof.
  apply (blank_text_gives_no_chunk (lit "  " ++ [NL; NL; NL] ++ lit " ")).
  reflexivity.
Defined.

(** ** Ingestion: the embedding loop *)

Section IngestionProperties.

Context {float : Type}.

Lemma embed_chunks_cons total i chunk rest points (w : World float) :
  embed_chunks total ((i, chunk) :: rest) points w =
  match provider w (requests w) chunk with
  | inl d =>
      (inl (ProviderFailure d),
       mkWorld (files w) (collections w) (index_fault w) (upsert_fault w)
               (provider w) (requests w ++ [chunk]) (uuid_source w)
               (uuids_drawn w) (stdout w))
  | inr embedding =>
      embed_chunks total rest
        (points ++ [mkPoint (uuid_source w (uuids_drawn w)) embedding chunk i])
        (after_embedding w total i chunk)
  end.
Proof.
  cbn [embed_chunks]. unfold bind at 1. unfold _create_embedding at 1.
  destruct (provider w (requests w) chunk) as [d|embedding]; [reflexivity|].
  unfold bind at 1, uuid4 at 1. unfold bind at 1. unfold after_embedding.
  destruct ((i + 1) mod 10 =? 0)%Z; reflexivity.
Qed.

(** The loop sends the chunks to the provider in order and stops at the
    first failure; nothing else in the world changes but the count of
    identifiers drawn and the console. *)
Lemma embed_chunks_requests total todo points (w : World float) :
  exists k,
    (k <= length todo)%nat /\
    requests (snd (embed_chunks total todo points w))
      = requests w ++ firstn k (List.map snd todo) /\
    collections (snd (embed_chunks total todo points w)) = collections w /\
    services_unchanged w (snd (embed_chunks total todo points w)) /\
    match fst (embed_chunks total todo points w) with
    | inr _ => k = length todo
    | inl e => exists d, e = ProviderFailure d
    end.
Proof.
  revert points w. induction todo as [|[i chunk] todo IH]; intros points w.
  - exists 0%nat. cbn. rewrite app_nil_r. now repeat split.
  - rewrite embed_chunks_cons.
    destruct (provider w (requests w) chunk) as [d|embedding] eqn:Ep.
    + exists 1%nat. cbn. repeat split; [lia | now exists d].
    + destruct (IH (points ++ [mkPoint (uuid_source w (uuids_drawn w))
                                       embedding chunk i])
                   (after_embedding w total i chunk))
        as (k & Hk & Hreq & Hcol & Hserv & Hres).
      exists (S k). cbn [length List.map firstn snd].
      split; [lia|]. split; [|split; [|split]].
      * rewrite Hreq. cbn [after_embedding requests]. now rewrite <- app_assoc.
      * exact Hcol.
      * exact Hserv.
      * destruct (fst (embed_chunks _ _ _ _)); [exact Hres | lia].
Qed.

Lemma enumerate_from_snd start chunks :
  List.map snd (enumerate_from start chunks) = chunks.
Proof.
  revert start. induction chunks as [|c chunks IH]; intros start;
    [reflexivity|]. cbn [enumerate_from List.map snd]. now rewrite IH.
Qed.

Lemma enumerate_from_length start chunks :
  length (enumerate_from start chunks) = length chunks.
Proof.
  rewrite <- (enumerate_from_snd start chunks) at 2. now rewrite length_map.
Qed.


Lemma enumerate_from_fst start chunks :
  List.map fst (enumerate_from start chunks)
  = List.map (fun k => (start + Z.of_nat k)%Z) (seq 0 (length chunks)).
Proof.
  revert start. induction chunks as [|c chunks IH]; intros start;
    [reflexivity|].
  cbn [enumerate_from List.map fst length seq]. rewrite IH.
  f_equal; [lia|]. rewrite <- seq_shift, map_map. apply map_ext. intros k. lia.
Qed.

(** When the provider answers every request, the loop returns one point
    per chunk, in order: the chunk as text, its index as chunk id, a
    freshly drawn identifier, and as vector an answer of the provider to
    that chunk. *)
Lemma embed_chunks_success total todo points (w : World float) :
  (forall history text, exists v, provider w history text = inr v) ->
  exists new w',
    embed_chunks total todo points w = (inr (points ++ new), w') /\
    List.map payload_text new = List.map snd todo /\
    List.map payload_chunk_id new = List.map fst todo /\
    List.map point_id new
      = List.map (uuid_source w) (seq (uuids_drawn w) (length todo)) /\
    Forall (fun p => exists history,
              provider w history (payload_text p) = inr (point_vector p)) new /\
    requests w' = requests w ++ List.map snd todo /\
    uuids_drawn w' = (uuids_drawn w + length todo)%nat /\
    collections w' = collections w /\
    services_unchanged w w'.
Proof.
  intros Hprov. revert points w Hprov.
  induction todo as [|[i chunk] todo IH]; intros points w Hprov.
  - exists [], w. cbn. rewrite !app_nil_r, Nat.add_0_r.
    repeat split; constructor.
  - rewrite embed_chunks_cons.
    destruct (Hprov (requests w) chunk) as [v Hv]. rewrite Hv.
    destruct (IH (points ++ [mkPoint (uuid_source w (uuids_drawn w)) v chunk i])
                 (after_embedding w total i chunk) Hprov)
      as (new & w' & Hrun & Htext & Hid & Huuid & Hvec & Hreq & Hdrawn
          & Hcol & Hserv).
    exists (mkPoint (uuid_source w (uuids_drawn w)) v chunk i :: new), w'.
    cbn [after_embedding requests uuids_drawn uuid_source provider] in *.
    split; [|split; [|split; [|split; [|split; [|split; [|split; [|split]]]]]]].
    + rewrite Hrun. now rewrite <- app_assoc.
    + cbn [List.map payload_text snd]. now rewrite Htext.
    + cbn [List.map payload_chunk_id fst]. now rewrite Hid.
    + cbn [List.map point_id length seq]. now rewrite Huuid.
    + constructor; [|exact Hvec]. now exists (requests w).
    + rewrite Hreq. cbn [List.map snd]. now rewrite <- app_assoc.
    + rewrite Hdrawn. cbn [length]. lia.
    + exact Hcol.
    + exact Hserv.
Qed.

(** The collections of the index as a lookup table. *)
Lemma str_eqb_eq a b : str_eqb a b = true <-> a = b.
Proof.
  unfold str_eqb. destruct (list_eq_dec N.eq_dec a b); split; congruence.
Qed.

Lemma lookup_store_same name (points : list (PointStruct float)) cs :
  lookup_collection name (store_collection name points cs) = Some points.
Proof.
  induction cs as [|[n old] cs IH]; cbn [store_collection lookup_collection].
  - now rewrite (proj2 (str_eqb_eq name name) eq_refl).
  - destruct (str_eqb n name) eqn:E; cbn [lookup_collection]; now rewrite E.
Qed.

Lemma lookup_store_other name other (points : list (PointStruct float)) cs :
  other <> name ->
  lookup_collection other (store_collection name points cs)
  = lookup_collection other cs.
Proof.
  intros Hne.
  induction cs as [|[n old] cs IH]; cbn [store_collection lookup_collection].
  - destruct (str_eqb name other) eqn:E; [|reflexivity].
    apply str_eqb_eq in E. congruence.
  - destruct (str_eqb n name) eqn:E; cbn [lookup_collection].
    + apply str_eqb_eq in E. subst n.
      destruct (str_eqb name other) eqn:E'; [|reflexivity].
      apply str_eqb_eq in E'. congruence.
    + destruct (str_eqb n other); [reflexivity | exact IH].
Qed.

(** Upserting points whose identifiers are new and distinct appends
    them. *)
Lemma upsert_point_fresh (p : PointStruct float) stored :
  ~ In (point_id p) (List.map point_id stored) ->
  upsert_point p stored = stored ++ [p].
Proof.
  induction stored as [|q stored IH]; intros H; [reflexivity|].
  cbn [upsert_point List.map In] in *.
  destruct (str_eqb (point_id q) (point_id p)) eqn:E.
  - apply str_eqb_eq in E. tauto.
  - cbn [app]. rewrite IH; [reflexivity | tauto].
Qed.

Lemma upsert_points_fresh (points stored : list (PointStruct float)) :
  NoDup (List.map point_id stored ++ List.map point_id points) ->
  fold_left (fun acc p => upsert_point p acc) points stored
  = stored ++ points.
Proof.
  revert stored. induction points as [|p points IH]; intros stored H.
  - cbn. now rewrite app_nil_r.
  - cbn [fold_left List.map] in *.
    rewrite upsert_point_fresh.
    + rewrite IH; [now rewrite <- app_assoc|].
      rewrite map_app. cbn [List.map]. now rewrite <- app_assoc.
    + apply NoDup_remove_2 in H. intros Hin. apply H, in_or_app. now left.
Qed.

End IngestionProperties.

(** ** Ingestion: [load_documents] *)

Section LoadDocuments.

Context {float : Type}.

Lemma bind_run {A B} (m : M float A) (k : A -> M float B) (w : World float) :
  (x <- m ;; k x) w
  = match m w with
    | (inl e, w') => (inl e, w')
    | (inr a, w') => k a w'
    end.
Proof. reflexivity. Qed.

Lemma services_unchanged_refl (w : World float) : services_unchanged w w.
Proof. now repeat split. Qed.

(** With a reachable index and an empty target collection the text is
    embedded, the points are upserted and the load is reported. *)
Lemma ingest_text_empty (self : VectorStore) text (w : World float) :
  index_fault w = None ->
  lookup_collection (collection_name self) (collections w) = Some [] ->
  ingest_text self text w
  = (points <- embed_chunks (Z.of_nat (length (_chunk_text text 500 100)))
                            (enumerate_from 0 (_chunk_text text 500 100)) [] ;;
     client_upsert (collection_name self) points ;;;
     print (Loaded (length (_chunk_text text 500 100)) (collection_name self)))
      (after_split_report w (length (_chunk_text text 500 100))).
Proof.
  intros Hfault Hlook.
  unfold ingest_text. unfold bind at 1, print at 1.
  unfold bind at 1, get_collection_points_count.
  unfold after_split_report.
  cbn [index_fault collections]. rewrite Hfault, Hlook. reflexivity.
Qed.

Lemma ingest_text_missing_collection (self : VectorStore) text
    (w : World float) :
  index_fault w = None ->
  lookup_collection (collection_name self) (collections w) = None ->
  ingest_text self text w
  = (inl (IndexFailure (lit "Collection not found")),
     after_split_report w (length (_chunk_text text 500 100))).
Proof.
  intros Hfault Hlook.
  unfold ingest_text, bind, print at 1, get_collection_points_count.
  unfold after_split_report.
  cbn [index_fault collections]. now rewrite Hfault, Hlook.
Qed.

(** What [ingest_text] sends to the provider and when it writes to the
    index. *)
Lemma ingest_text_effects (self : VectorStore) text (w : World float) :
  services_unchanged w (snd (ingest_text self text w)) /\
  (exists k, requests (snd (ingest_text self text w))
             = requests w ++ firstn k (_chunk_text text 500 100)) /\
  (forall d, fst (ingest_text self text w) = inl (ProviderFailure d) ->
             collections (snd (ingest_text self text w)) = collections w).
Proof.
  set (chunks := _chunk_text text 500 100).
  assert (forall points (w1 : World float),
            services_unchanged w1
              (snd ((client_upsert (collection_name self) points ;;;
                     print (Loaded (length chunks) (collection_name self))) w1))
            /\ requests
                 (snd ((client_upsert (collection_name self) points ;;;
                        print (Loaded (length chunks) (collection_name self)))
                         w1))
               = requests w1
            /\ forall d,
                 fst ((client_upsert (collection_name self) points ;;;
                       print (Loaded (length chunks) (collection_name self)))
                        w1) <> inl (ProviderFailure d)) as Hupsert.
  { intros points w1. unfold bind, client_upsert, print, services_unchanged.
    destruct points as [|point points]; [now repeat split|].
    destruct (index_fault w1) eqn:E1; [now repeat split|].
    destruct (upsert_fault w1) eqn:E2; [now repeat split|].
    destruct (lookup_collection _ _); cbn; now repeat split. }
  destruct (index_fault w) as [d|] eqn:Hfault.
  { rewrite (ingest_text_index_fault _ _ _ _ Hfault). cbn [fst snd].
    split; [now repeat split|]. split; [|discriminate].
    exists 0%nat. cbn. now rewrite app_nil_r. }
  destruct (lookup_collection (collection_name self) (collections w))
    as [[|p points]|] eqn:Hlook.
  - rewrite (ingest_text_empty _ _ _ Hfault Hlook). fold chunks.
    rewrite bind_run.
    destruct (embed_chunks_requests (Z.of_nat (length chunks))
                (enumerate_from 0 chunks) []
                (after_split_report w (length chunks)))
      as (k & _ & Hreq & Hcol & Hserv & Hres).
    rewrite enumerate_from_snd in Hreq.
    destruct (embed_chunks _ _ _ _) as [[e|points] w1]. 
    + cbn [fst snd] in *. split; [exact Hserv|].
      split; [now exists k | intros _ _; exact Hcol].
    + cbn [fst snd] in *.
      destruct (Hupsert points w1) as (Hs2 & Hr2 & Hno).
      split; [|split].
      * destruct Hserv as (A & B & C & D & E).
        destruct Hs2 as (A' & B' & C' & D' & E').
        cbn [after_split_report files index_fault upsert_fault provider
             uuid_source] in *.
        repeat split; congruence.
      * exists k. now rewrite Hr2.
      * intros d Hd. now apply Hno in Hd.
  - rewrite (ingest_text_populated self text w (p :: points) Hlook
               ltac:(discriminate) Hfault).
    cbn [fst snd]. split; [now repeat split|]. split; [|discriminate].
    exists 0%nat. cbn. now rewrite app_nil_r.
  - rewrite (ingest_text_missing_collection _ _ _ Hfault Hlook).
    cbn [fst snd]. split; [now repeat split|]. split; [|discriminate].
    exists 0%nat. cbn. now rewrite app_nil_r.
Qed.

(** Whatever happens, [load_documents] sends to the embedding provider
    only chunks of the file, in their order and each at most once, and it
    leaves the file system and the behaviour of the services as they
    are. *)
Theorem load_documents_requests_are_chunks
    (self : VectorStore) (file_path : str) (w : World float) :
  services_unchanged w (snd (load_documents self file_path w)) /\
  exists k,
    requests (snd (load_documents self file_path w))
    = requests w ++ firstn k (file_chunks w file_path).
Proof.
  unfold file_chunks.
  destruct (files w file_path) as [|text|d] eqn:Hfile.
  - rewrite (load_documents_absent _ _ _ Hfile). cbn [snd].
    split; [apply services_unchanged_refl|]. exists 0%nat. cbn.
    now rewrite app_nil_r.
  - rewrite (load_documents_readable _ _ _ _ Hfile).
    destruct (ingest_text_effects self text w) as (H1 & H2 & _). now split.
  - rewrite (load_documents_unreadable _ _ _ _ Hfile). cbn [snd].
    split; [apply services_unchanged_refl|]. exists 0%nat. cbn.
    now rewrite app_nil_r.
Qed.

(** When [load_documents] fails because the embedding provider failed,
    nothing has been written to the index: the points are upserted in one
    batch after the last embedding. *)
Theorem load_documents_provider_failure_stores_nothing
    (self : VectorStore) (file_path : str) (w : World float) (d : str) :
  fst (load_documents self file_path w) = inl (ProviderFailure d) ->
  collections (snd (load_documents self file_path w)) = collections w.
Proof.
  destruct (files w file_path) as [|text|d'] eqn:Hfile.
  - now rewrite (load_documents_absent _ _ _ Hfile).
  - rewrite (load_documents_readable _ _ _ _ Hfile).
    destruct (ingest_text_effects self text w) as (_ & _ & H). apply H.
  - now rewrite (load_documents_unreadable _ _ _ _ Hfile).
Qed.


(** The successful ingestion into an empty collection. *)
Lemma load_documents_success
    (self : VectorStore) (file_path text : str) (w : World float) :
  files w file_path = Readable text ->
  index_fault w = None -> upsert_fault w = None ->
  lookup_collection (collection_name self) (collections w) = Some [] ->
  (forall history request, exists v, provider w history request = inr v) ->
  NoDup (next_uuids w (length (_chunk_text text 500 100))) ->
  _chunk_text text 500 100 <> [] ->
  exists points,
    fst (load_documents self file_path w) = inr tt /\
    collections (snd (load_documents self file_path w))
      = store_collection (collection_name self) points (collections w) /\
    List.map payload_text points = _chunk_text text 500 100 /\
    List.map payload_chunk_id points
      = List.map Z.of_nat (seq 0 (length (_chunk_text text 500 100))) /\
    List.map point_id points
      = next_uuids w (length (_chunk_text text 500 100)) /\
    Forall (fun p => exists history,
              provider w history (payload_text p) = inr (point_vector p))
           points /\
    requests (snd (load_documents self file_path w))
      = requests w ++ _chunk_text text 500 100 /\
    services_unchanged w (snd (load_documents self file_path w)).
Proof.
  intros Hfile Hfault Hupsert Hlook Hprov Hfresh Hsome.
  rewrite (load_documents_readable _ _ _ _ Hfile).
  rewrite (ingest_text_empty _ _ _ Hfault Hlook).
  set (chunks := _chunk_text text 500 100) in *.
  rewrite bind_run.
  destruct (embed_chunks_success (Z.of_nat (length chunks))
              (enumerate_from 0 chunks) []
              (after_split_report w (length chunks)) Hprov)
    as (points & w1 & Hrun & Htext & Hid & Huuid & Hvec & Hreq & _ & Hcol
        & Hserv).
  rewrite Hrun. cbn [app].
  rewrite enumerate_from_snd in Htext, Hreq.
  rewrite enumerate_from_fst in Hid. rewrite enumerate_from_length in Huuid.
  destruct Hserv as (Hfiles & Hif & Huf & Hpr & Hus).
  cbn [after_split_report files index_fault upsert_fault provider uuid_source
       uuids_drawn requests collections] in *.
  assert (points <> []) as Hne.
  { intros ->. apply Hsome. symmetry. exact Htext. }
  exists points.
  unfold bind, client_upsert.
  destruct points as [|point rest]; [contradiction|]. cbv beta iota.
  remember (point :: rest) as points eqn:Hcons. clear Hcons Hne.
  rewrite Hif, Hfault, Huf, Hupsert, Hcol, Hlook.
  unfold print. cbn [fst snd collections requests].
  rewrite upsert_points_fresh by (cbn [List.map app]; now rewrite Huuid).
  cbn [app].
  assert (List.map payload_chunk_id points
          = List.map Z.of_nat (seq 0 (length chunks))) as Hid'.
  { rewrite Hid. apply map_ext. intros k. lia. }
  repeat split;
    cbn [files index_fault upsert_fault provider uuid_source];
    try assumption; congruence.
Qed.

(** A text that gives no chunk is not ingested: the client refuses the
    empty list of points. *)
Lemma load_documents_refused
    (self : VectorStore) (file_path text : str) (w : World float) :
  files w file_path = Readable text ->
  index_fault w = None ->
  lookup_collection (collection_name self) (collections w) = Some [] ->
  _chunk_text text 500 100 = [] ->
  load_documents self file_path w
  = (inl (ValueError (lit "Empty update request")), after_split_report w 0).
Proof.
  intros Hfile Hfault Hlook Hnone.
  rewrite (load_documents_readable _ _ _ _ Hfile).
  rewrite (ingest_text_empty _ _ _ Hfault Hlook). now rewrite Hnone.
Qed.

(** When the file can be read, the index is reachable, the target
    collection is empty, the provider answers and the identifiers drawn
    are distinct: if [_chunk_text] returns at least one chunk,
    [load_documents] returns normally and the collection holds one point
    per chunk, in order: the chunk as text, its position as chunk id, a
    fresh identifier and a vector the provider returned for that chunk;
    every chunk was sent to the provider once, in order, and no other
    collection changed. If [_chunk_text] returns no chunk,
    [load_documents] raises the [ValueError] with which the client
    refuses the empty list of points, after reporting zero chunks, and
    neither the index nor the provider's log has changed. *)
Theorem load_documents_stores_one_point_per_chunk
    (self : VectorStore) (file_path text : str) (w : World float) :
  files w file_path = Readable text ->
  index_fault w = None -> upsert_fault w = None ->
  lookup_collection (collection_name self) (collections w) = Some [] ->
  (forall history request, exists v, provider w history request = inr v) ->
  NoDup (next_uuids w (length (_chunk_text text 500 100))) ->
  (_chunk_text text 500 100 <> [] ->
   exists points,
     fst (load_documents self file_path w) = inr tt /\
     lookup_collection (collection_name self)
       (collections (snd (load_documents self file_path w))) = Some points /\
     List.map payload_text points = _chunk_text text 500 100 /\
     List.map payload_chunk_id points
       = List.map Z.of_nat (seq 0 (length (_chunk_text text 500 100))) /\
     List.map point_id points
       = next_uuids w (length (_chunk_text text 500 100)) /\
     Forall (fun p => exists history,
               provider w history (payload_text p) = inr (point_vector p))
            points /\
     requests (snd (load_documents self file_path w))
       = requests w ++ _chunk_text text 500 100 /\
     (forall other, other <> collection_name self ->
        lookup_collection other
          (collections (snd (load_documents self file_path w)))
        = lookup_collection other (collections w)))
  /\
  (_chunk_text text 500 100 = [] ->
   fst (load_documents self file_path w)
     = inl (ValueError (lit "Empty update request")) /\
   collections (snd (load_documents self file_path w)) = collections w /\
   requests (snd (load_documents self file_path w)) = requests w /\
   stdout (snd (load_documents self file_path w))
     = stdout w ++ [TextSplit 0]).
Proof.
  intros Hfile Hfault Hupsert Hlook Hprov Hfresh. split.
  - intros Hsome.
    destruct (load_documents_success self file_path text w Hfile Hfault
                Hupsert Hlook Hprov Hfresh Hsome)
      as (points & Hok & Hcol & Htext & Hid & Huuid & Hvec & Hreq & _).
    exists points. rewrite Hcol.
    split; [exact Hok|]. split; [apply lookup_store_same|].
    repeat (split; [assumption|]).
    intros other Hother. now apply lookup_store_other.
  - intros Hnone.
    rewrite (load_documents_refused _ _ _ _ Hfile Hfault Hlook Hnone).
    now repeat split.
Qed.

(** After such an ingestion that stored at least one chunk,
    [get_collection_stats] reports as many points as [_chunk_text]
    returned chunks, and a second [load_documents], of any file, sends
    nothing to the provider and leaves the index as it is. *)
Theorem load_documents_then_stats_and_reload
    (self : VectorStore) (file_path text again : str) (w : World float) :
  files w file_path = Readable text ->
  index_fault w = None -> upsert_fault w = None ->
  lookup_collection (collection_name self) (collections w) = Some [] ->
  (forall history request, exists v, provider w history request = inr v) ->
  NoDup (next_uuids w (length (_chunk_text text 500 100))) ->
  _chunk_text text 500 100 <> [] ->
  let w1 := snd (load_documents self file_path w) in
  (exists stats,
     get_collection_stats self w1 = (inr stats, w1) /\
     dict_get stats "count"
       = Some (VInt (Z.of_nat (length (_chunk_text text 500 100))))) /\
  collections (snd (load_documents self again w1)) = collections w1 /\
  requests (snd (load_documents self again w1)) = requests w1.
Proof.
  intros Hfile Hfault Hupsert Hlook Hprov Hfresh Hsome w1.
  destruct (load_documents_success self file_path text w Hfile Hfault Hupsert
              Hlook Hprov Hfresh Hsome)
    as (points & _ & Hcol & Htext & _ & _ & _ & _ & Hserv).
  fold w1 in Hcol, Hserv.
  destruct Hserv as (Hfiles & Hif & _).
  assert (lookup_collection (collection_name self) (collections w1)
          = Some points) as Hlook1
    by (rewrite Hcol; apply lookup_store_same).
  assert (points <> []) as Hpoints.
  { intros E. subst points. cbn in Htext. congruence. }
  assert (index_fault w1 = None) as Hfault1 by congruence.
  split.
  - destruct (get_collection_stats_count self w1 points Hfault1 Hlook1)
      as (stats & H1 & H2).
    exists stats. split; [exact H1|].
    rewrite H2. rewrite <- Htext. now rewrite length_map.
  - destruct (files w1 again) as [|text2|d] eqn:Hagain.
    + now rewrite (load_documents_absent _ _ _ Hagain).
    + rewrite (load_documents_readable _ _ _ _ Hagain).
      now rewrite (ingest_text_populated self text2 w1 points Hlook1 Hpoints
                     Hfault1).
    + now rewrite (load_documents_unreadable _ _ _ _ Hagain).
Qed.

End LoadDocuments.

Lemma load_documents_provider_failure_stores_nothing_witness :
  collections (snd (load_documents sample_store (lit "data/docs.txt")
                      failing_world))
  = collections failing_world.
Proof.
  apply (load_documents_provider_failure_stores_nothing sample_store
           (lit "data/docs.txt") failing_world (lit "rate limit")).
  vm_compute. reflexivity.
Defined.

Lemma fresh_world_ready :
  files fresh_world (lit "data/docs.txt") = Readable (repeat 97%N 60) /\
  lookup_collection (collection_name sample_store) (collections fresh_world)
    = Some [] /\
  (forall history request,
     exists v, provider fresh_world history request = inr v) /\
  NoDup (next_uuids fresh_world
           (length (_chunk_text (repeat 97%N 60) 500 100))).
Proof.
  split; [reflexivity|]. split; [reflexivity|]. split.
  - intros history request. now exists [0%Z].
  - vm_compute. constructor; [intros []|constructor].
Qed.

Lemma load_documents_stores_one_point_per_chunk_witness :
  (exists points,
     lookup_collection (lit "rag_collection")
       (collections (snd (load_documents sample_store (lit "data/docs.txt")
                            fresh_world))) = Some points /\
     List.map payload_text points = [repeat 97%N 60]) /\
  fst (load_documents sample_store (lit "data/docs.txt") short_file_world)
    = inl (ValueError (lit "Empty update request")).
Proof.
  split.
  - destruct fresh_world_ready as (Hfile & Hlook & Hprov & Hfresh).
    destruct (load_documents_stores_one_point_per_chunk sample_store
                (lit "data/docs.txt") (repeat 97%N 60) fresh_world
                Hfile eq_refl eq_refl Hlook Hprov Hfresh)
      as [H _].
    destruct H as (points & _ & H1 & H2 & _).
    + vm_compute. discriminate.
    + exists points. split; [exact H1 | exact H2].
  - destruct (load_documents_stores_one_point_per_chunk sample_store
                (lit "data/docs.txt") (lit "Some text.") short_file_world)
      as [_ H].
    + reflexivity.
    + reflexivity.
    + reflexivity.
    + reflexivity.
    + intros history request. now exists [0%Z].
    + vm_compute. constructor.
    + apply H. reflexivity.
Defined.

Lemma load_documents_then_stats_and_reload_witness :
  collections
    (snd (load_documents sample_store (lit "missing.txt")
            (snd (load_documents sample_store (lit "data/docs.txt")
                    fresh_world))))
  = collections (snd (load_documents sample_store (lit "data/docs.txt")
                        fresh_world)).
Proof.
  destruct fresh_world_ready as (Hfile & Hlook & Hprov & Hfresh).
  destruct (load_documents_then_stats_and_reload sample_store
              (lit "data/docs.txt") (repeat 97%N 60) (lit "missing.txt")
              fresh_world Hfile eq_refl eq_refl Hlook Hprov Hfresh)
    as (_ & H & _).
  - vm_compute. discriminate.
  - exact H.
Defined.

(** ** Retrieval: [search] *)

Section SearchProperties.

Context {float : Type}.

Variable query_points :
  World float -> str -> list float -> Z -> str + list (ScoredPoint float).

Lemma create_embedding_run query (w : World float) :
  _create_embedding query w
  = (match provider w (requests w) query with
     | inl d => inl (ProviderFailure d)
     | inr v => inr v
     end, after_request w query).
Proof. reflexivity. Qed.

(** [search] sends exactly one request to the embedding provider, the
    query, whether it then succeeds or fails, and changes nothing else:
    it never writes to the index. When the provider fails, that failure is
    what [search] raises. *)
Theorem search_only_requests_the_query
    (self : VectorStore) (query : str) (top_k : Z) (w : World float) :
  snd (search query_points self query top_k w) = after_request w query /\
  requests (snd (search query_points self query top_k w))
    = requests w ++ [query] /\
  collections (snd (search query_points self query top_k w)) = collections w /\
  (forall d, provider w (requests w) query = inl d ->
     fst (search query_points self query top_k w)
     = inl (Raised (ProviderFailure d))).
Proof.
  unfold search. rewrite create_embedding_run.
  destruct (provider w (requests w) query) as [d|v].
  - cbn [fst snd]. repeat split. intros d' H. congruence.
  - destruct (query_points _ _ _ _); cbn [fst snd]; repeat split;
      intros d' H; discriminate H.
Qed.

(** The formatting loop. *)
Lemma format_results_app (results : list (ScoredPoint float)) documents :
  match format_results results [] with
  | inr new => format_results results documents = inr (documents ++ new)
  | inl e => format_results results documents = inl e
  end.
Proof.
  revert documents. induction results as [|r results IH]; intros documents.
  - cbn. now rewrite app_nil_r.
  - cbn [format_results].
    destruct (dict_get (scored_payload r) "text") as [text|]; [|reflexivity].
    cbn [app].
    pose proof (IH [mkDocument (scored_id r) text (scored_score r)
                      (get_chunk_id (scored_payload r))]) as H1.
    pose proof (IH (documents
                      ++ [mkDocument (scored_id r) text (scored_score r)
                            (get_chunk_id (scored_payload r))])) as H2.
    destruct (format_results results []) as [e|new].
    + now rewrite H1, H2.
    + rewrite H1, H2. now rewrite <- app_assoc.
Qed.

Lemma format_results_cons (r : ScoredPoint float) results :
  format_results (r :: results) [] =
  match dict_get (scored_payload r) "text" with
  | None => inl (KeyError "text")
  | Some text =>
      match format_results results [] with
      | inl e => inl e
      | inr new =>
          inr (mkDocument (scored_id r) text (scored_score r)
                 (get_chunk_id (scored_payload r)) :: new)
      end
  end.
Proof.
  cbn [format_results].
  destruct (dict_get (scored_payload r) "text") as [text|]; [|reflexivity].
  cbn [app].
  pose proof (format_results_app results
                [mkDocument (scored_id r) text (scored_score r)
                   (get_chunk_id (scored_payload r))]) as H.
  destruct (format_results results []); exact H.
Qed.

Lemma format_results_complete (results : list (ScoredPoint float)) :
  Forall (fun r => dict_get (scored_payload r) "text" <> None) results ->
  exists documents,
    format_results results [] = inr documents /\
    Forall2 formats_to results documents.
Proof.
  induction 1 as [|r results Hr _ (documents & IH1 & IH2)].
  - exists []. split; [reflexivity | constructor].
  - rewrite format_results_cons, IH1.
    destruct (dict_get (scored_payload r) "text") as [text|] eqn:E;
      [|congruence].
    eexists. split; [reflexivity|]. constructor; [|exact IH2].
    now repeat split.
Qed.

Lemma format_results_key_error (results : list (ScoredPoint float)) :
  Exists (fun r => dict_get (scored_payload r) "text" = None) results ->
  format_results results [] = inl (KeyError "text").
Proof.
  induction 1 as [r results Hr | r results _ IH];
    rewrite format_results_cons.
  - now rewrite Hr.
  - rewrite IH. now destruct (dict_get (scored_payload r) "text").
Qed.

(** When the provider returns an embedding and the index answers,
    [search] returns one document per returned point, in the order of the
    index: the identifier and the score of the point, the text of its
    payload, and the chunk id of its payload or [0] when the payload has
    none. An empty answer gives an empty list. *)
Theorem search_formats_every_result
    (self : VectorStore) (query : str) (top_k : Z) (w : World float)
    (v : list float) (results : list (ScoredPoint float)) :
  provider w (requests w) query = inr v ->
  query_points (after_request w query) (collection_name self) v top_k
    = inr results ->
  Forall (fun r => dict_get (scored_payload r) "text" <> None) results ->
  exists documents,
    fst (search query_points self query top_k w) = inr documents /\
    Forall2 formats_to results documents /\
    length documents = length results /\
    (results = [] -> documents = []).
Proof.
  intros Hv Hq Htext. unfold search. rewrite create_embedding_run, Hv, Hq.
  cbn [fst].
  destruct (format_results_complete results Htext) as (documents & H1 & H2).
  exists documents. split; [exact H1|]. split; [exact H2|].
  split; [symmetry; now apply Forall2_length in H2|].
  intros ->. now inversion H2.
Qed.

(** When a returned point has no ['text'] in its payload, [search] raises
    [KeyError] and returns no document at all. *)
Theorem search_raises_key_error
    (self : VectorStore) (query : str) (top_k : Z) (w : World float)
    (v : list float) (results : list (ScoredPoint float)) :
  provider w (requests w) query = inr v ->
  query_points (after_request w query) (collection_name self) v top_k
    = inr results ->
  Exists (fun r => dict_get (scored_payload r) "text" = None) results ->
  fst (search query_points self query top_k w) = inl (KeyError "text").
Proof.
  intros Hv Hq Hmissing. unfold search.
  rewrite create_embedding_run, Hv, Hq. cbn [fst].
  now apply format_results_key_error.
Qed.

End SearchProperties.

Lemma search_formats_every_result_witness :
  exists documents,
    fst (search first_points sample_store (lit "query") 3 sample_world)
    = inr documents /\
    length documents = 1%nat.
Proof.
  destruct (search_formats_every_result first_points sample_store
              (lit "query") 3 sample_world [0%Z]
              [mkScored (lit "id-0") 0%Z (payload_of sample_point)])
    as (documents & H1 & _ & H2 & _).
  - reflexivity.
  - reflexivity.
  - repeat constructor. discriminate.
  - exists documents. split; [exact H1 | exact H2].
Defined.

Lemma search_raises_key_error_witness :
  fst (search bare_point sample_store (lit "query") 3 sample_world)
  = inl (KeyError "text").
Proof.
  apply (search_raises_key_error bare_point sample_store (lit "query") 3
           sample_world [0%Z]
           [mkScored (lit "id-7") 0%Z [("chunk_id"%string, VInt 3)]]).
  - reflexivity.
  - reflexivity.
  - constructor. reflexivity.
Defined.

Lemma search_only_requests_the_query_witness :
  fst (search first_points sample_store (lit "query") 3 failing_world)
  = inl (Raised (ProviderFailure (lit "rate limit"))).
Proof.
  apply (search_only_requests_the_query first_points sample_store
           (lit "query") 3 failing_world).
  reflexivity.
Defined.

(** ** Ingestion followed by retrieval *)

Section IngestThenSearch.

Context {float : Type}.

Variable query_points :
  World float -> str -> list float -> Z -> str + list (ScoredPoint float).

Lemma stored_point_is_a_chunk (points : list (PointStruct float)) chunks p :
  List.map payload_text points = chunks ->
  List.map payload_chunk_id points
    = List.map Z.of_nat (seq 0 (length chunks)) ->
  In p points ->
  exists i,
    payload_chunk_id p = Z.of_nat i /\
    nth_error chunks i = Some (payload_text p).
Proof.
  intros Htext Hid Hin.
  apply In_nth_error in Hin as [i Hi]. exists i.
  assert (nth_error chunks i = Some (payload_text p)) as Hc.
  { rewrite <- Htext. now apply map_nth_error. }
  split; [|exact Hc].
  apply (map_nth_error payload_chunk_id) in Hi. rewrite Hid in Hi.
  assert (i < length chunks)%nat as Hlt
    by (apply nth_error_Some; congruence).
  rewrite (map_nth_error Z.of_nat i (seq 0 (length chunks)) (d := i)) in Hi.
  - congruence.
  - rewrite nth_error_nth' with (d := 0%nat) by (rewrite length_seq; lia).
    now rewrite seq_nth.
Qed.

(** What the target collection holds after [load_documents] ran on an
    empty collection, whether the points were stored or the empty list
    of points was refused. *)
Lemma load_documents_stored
    (self : VectorStore) (file_path text : str) (w : World float) :
  files w file_path = Readable text ->
  index_fault w = None -> upsert_fault w = None ->
  lookup_collection (collection_name self) (collections w) = Some [] ->
  (forall history request, exists v, provider w history request = inr v) ->
  NoDup (next_uuids w (length (_chunk_text text 500 100))) ->
  exists points,
    lookup_collection (collection_name self)
      (collections (snd (load_documents self file_path w))) = Some points /\
    List.map payload_text points = _chunk_text text 500 100 /\
    List.map payload_chunk_id points
      = List.map Z.of_nat (seq 0 (length (_chunk_text text 500 100))) /\
    provider (snd (load_documents self file_path w)) = provider w.
Proof.
  intros Hfile Hfault Hupsert Hlook Hprov Hfresh.
  destruct (_chunk_text text 500 100) as [|chunk chunks] eqn:Hchunks.
  - rewrite (load_documents_refused _ _ _ _ Hfile Hfault Hlook Hchunks).
    exists []. cbn [snd after_split_report collections provider].
    split; [exact Hlook|]. now repeat split.
  - rewrite <- Hchunks in *.
    destruct (load_documents_success self file_path text w Hfile Hfault
                Hupsert Hlook Hprov Hfresh)
      as (points & _ & Hcol & Htext & Hid & _ & _ & _ & Hserv).
    { rewrite Hchunks. discriminate. }
    exists points. rewrite Hcol.
    split; [apply lookup_store_same|]. split; [exact Htext|].
    split; [exact Hid|]. destruct Hserv as (_ & _ & _ & Hpr & _).
    now symmetry.
Qed.

(** After [load_documents] filled an empty collection, a [search] on an
    index that answers with points of that collection raises no
    [KeyError], and every document it returns carries a chunk of the file
    as its text and the position of that chunk in the result of
    [_chunk_text] as its chunk id. *)
Theorem search_returns_ingested_chunks
    (self : VectorStore) (file_path text query : str) (top_k : Z)
    (w : World float) (results : list (ScoredPoint float)) :
  files w file_path = Readable text ->
  index_fault w = None -> upsert_fault w = None ->
  lookup_collection (collection_name self) (collections w) = Some [] ->
  (forall history request, exists v, provider w history request = inr v) ->
  NoDup (next_uuids w (length (_chunk_text text 500 100))) ->
  let w1 := snd (load_documents self file_path w) in
  (forall v, query_points (after_request w1 query) (collection_name self)
                          v top_k = inr results) ->
  (forall r, In r results ->
     exists p points,
       lookup_collection (collection_name self) (collections w1)
         = Some points /\
       In p points /\ scored_payload r = payload_of p) ->
  exists documents,
    fst (search query_points self query top_k w1) = inr documents /\
    length documents = length results /\
    Forall (fun d => exists i chunk,
              nth_error (_chunk_text text 500 100) i = Some chunk /\
              doc_text d = VStr chunk /\
              doc_chunk_id d = VInt (Z.of_nat i)) documents.
Proof.
  intros Hfile Hfault Hupsert Hlook Hprov Hfresh w1 Hanswer Hfrom.
  destruct (load_documents_stored self file_path text w Hfile Hfault Hupsert
              Hlook Hprov Hfresh)
    as (points & Hlook1 & Htext & Hid & Hpr).
  fold w1 in Hlook1, Hpr.
  destruct (Hprov (requests w1) query) as [v Hv]. rewrite <- Hpr in Hv.
  assert (Forall (fun r => dict_get (scored_payload r) "text" <> None) results)
    as Hall.
  { apply Forall_forall. intros r Hr.
    destruct (Hfrom r Hr) as (p & pts & _ & _ & Hp). rewrite Hp. discriminate. }
  destruct (format_results_complete results Hall) as (documents & H1 & H2).
  exists documents. unfold search.
  rewrite create_embedding_run, Hv, (Hanswer v). cbn [fst].
  split; [exact H1|]. split; [symmetry; now apply Forall2_length in H2|].
  assert (forall r, In r results ->
            exists i chunk,
              nth_error (_chunk_text text 500 100) i = Some chunk /\
              scored_payload r
              = [("text"%string, VStr chunk);
                 ("chunk_id"%string, VInt (Z.of_nat i))]) as Hchunk.
  { intros r Hr. destruct (Hfrom r Hr) as (p & pts & Hl & Hin & Hp).
    assert (pts = points) as -> by congruence.
    destruct (stored_point_is_a_chunk points _ p Htext Hid Hin)
      as (i & Hi & Hc).
    exists i, (payload_text p). split; [exact Hc|].
    rewrite Hp. unfold payload_of. now rewrite Hi. }
  clear - H2 Hchunk. induction H2 as [|r d results documents Hrd _ IH].
  - constructor.
  - constructor.
    + destruct (Hchunk r (or_introl eq_refl)) as (i & chunk & Hc & Hp).
      destruct Hrd as (_ & _ & Ht & Hi). rewrite Hp in Ht, Hi.
      exists i, chunk. cbn in Ht, Hi. split; [exact Hc|].
      split; congruence.
    + apply IH. intros r' Hr'. apply Hchunk. now right.
Qed.

End IngestThenSearch.

Lemma search_returns_ingested_chunks_witness :
  exists documents,
    fst (search first_points sample_store (lit "query") 3
           (snd (load_documents sample_store (lit "data/docs.txt")
                   fresh_world)))
    = inr documents /\
    length documents = 1%nat.
Proof.
  destruct fresh_world_ready as (Hfile & Hlook & Hprov & Hfresh).
  destruct (search_returns_ingested_chunks first_points sample_store
              (lit "data/docs.txt") (repeat 97%N 60) (lit "query") 3
              fresh_world
              [mkScored (lit "id-") 0%Z
                 (payload_of (mkPoint (lit "id-") [0%Z] (repeat 97%N 60) 0))]
              Hfile eq_refl eq_refl Hlook Hprov Hfresh)
    as (documents & H1 & H2 & _).
  - intros v. vm_compute. reflexivity.
  - intros r [<- | []].
    exists (mkPoint (lit "id-") [0%Z] (repeat 97%N 60) 0),
           [mkPoint (lit "id-") [0%Z] (repeat 97%N 60) 0].
    split; [vm_compute; reflexivity|]. split; [now left | reflexivity].
  - exists documents. split; [exact H1 | exact H2].
Defined.

(** ** Construction: [_ensure_collection_exists] and [__init__] *)

Section LifecycleProperties.

Context {float : Type}.

Lemma name_in_lookup name (cs : list (str * list (PointStruct float))) :
  name_in name (List.map fst cs)
  = match lookup_collection name cs with Some _ => true | None => false end.
Proof.
  induction cs as [|[n points] cs IH]; [reflexivity|].
  cbn [List.map fst name_in existsb lookup_collection].
  destruct (str_eqb n name); [reflexivity | exact IH].
Qed.

Lemma lookup_app_new name (cs : list (str * list (PointStruct float))) :
  lookup_collection name cs = None ->
  lookup_collection name (cs ++ [(name, [])]) = Some [].
Proof.
  induction cs as [|[n points] cs IH]; cbn [app lookup_collection].
  - now rewrite (proj2 (str_eqb_eq name name) eq_refl).
  - destruct (str_eqb n name); [discriminate | exact IH].
Qed.

Lemma lookup_app_other name other
    (cs : list (str * list (PointStruct float))) :
  other <> name ->
  lookup_collection other (cs ++ [(name, [])]) = lookup_collection other cs.
Proof.
  intros Hne. induction cs as [|[n points] cs IH]; cbn [app lookup_collection].
  - destruct (str_eqb name other) eqn:E; [|reflexivity].
    apply str_eqb_eq in E. congruence.
  - destruct (str_eqb n other); [reflexivity | exact IH].
Qed.

(** The four ways [_ensure_collection_exists] can go. *)
Lemma ensure_existing (self : VectorStore) (s : Process float) points :
  index_fault (world s) = None ->
  lookup_collection (collection_name self) (collections (world s))
    = Some points ->
  _ensure_collection_exists self s
  = (inr tt,
     noted s (CollectionLoaded (collection_name self)
                (Z.of_nat (length points)))).
Proof.
  intros Hfault Hlook.
  unfold _ensure_collection_exists, ptry, pbind, get_collection_names.
  rewrite Hfault, name_in_lookup, Hlook.
  unfold lift, get_collection_points_count. rewrite Hfault, Hlook.
  reflexivity.
Qed.

Lemma ensure_creates (self : VectorStore) (s : Process float) :
  index_fault (world s) = None -> create_fault s = None ->
  lookup_collection (collection_name self) (collections (world s)) = None ->
  _ensure_collection_exists self s
  = (inr tt,
     noted (created s (collection_name self)
              (mkParams (vector_size self) COSINE))
           (CollectionCreated (collection_name self))).
Proof.
  intros Hfault Hcreate Hlook.
  unfold _ensure_collection_exists, ptry, pbind, get_collection_names,
    create_collection, noted, created, say.
  destruct s as [[fs cs ifault ufault prov reqs usrc drawn out]
                  cfg ns cf oaf crf clf cc].
  cbn [world index_fault collections create_fault] in *. subst ifault crf.
  cbn [world index_fault collections create_fault].
  rewrite name_in_lookup, Hlook.
  cbn [world index_fault collections create_fault].
  rewrite name_in_lookup, Hlook. reflexivity.
Qed.

Lemma ensure_index_fault (self : VectorStore) (s : Process float) d :
  index_fault (world s) = Some d ->
  _ensure_collection_exists self s
  = (inl (IndexFailure d), noted s (CollectionError d)).
Proof.
  intros Hfault.
  unfold _ensure_collection_exists, ptry, pbind, get_collection_names.
  now rewrite Hfault.
Qed.

Lemma ensure_create_fault (self : VectorStore) (s : Process float) d :
  index_fault (world s) = None -> create_fault s = Some d ->
  lookup_collection (collection_name self) (collections (world s)) = None ->
  _ensure_collection_exists self s
  = (inl (IndexFailure d), noted s (CollectionError d)).
Proof.
  intros Hfault Hcreate Hlook.
  unfold _ensure_collection_exists, ptry, pbind, get_collection_names.
  rewrite Hfault, name_in_lookup, Hlook.
  unfold create_collection. now rewrite Hfault, Hcreate.
Qed.

(** When [_ensure_collection_exists] returns, the collection of the store
    exists, the index is reachable and no other collection has changed.
    A collection that existed keeps its points and nothing in the world
    changes; a collection that did not exist is created empty, with the
    vector size of the store and the cosine distance. *)
Theorem ensure_collection_exists_returns
    (self : VectorStore) (s : Process float) :
  fst (_ensure_collection_exists self s) = inr tt ->
  let s' := snd (_ensure_collection_exists self s) in
  index_fault (world s') = None /\
  (exists points,
     lookup_collection (collection_name self) (collections (world s'))
       = Some points /\
     ((lookup_collection (collection_name self) (collections (world s))
         = Some points /\ world s' = world s)
      \/
      (lookup_collection (collection_name self) (collections (world s))
         = None /\ points = [] /\
       In (collection_name self, mkParams (vector_size self) COSINE)
          (vector_configs s')))) /\
  (forall other, other <> collection_name self ->
     lookup_collection other (collections (world s'))
     = lookup_collection other (collections (world s))).
Proof.
  intros Hok s'. subst s'.
  destruct (index_fault (world s)) as [d|] eqn:Hfault.
  { rewrite (ensure_index_fault _ _ _ Hfault) in Hok. discriminate Hok. }
  destruct (lookup_collection (collection_name self) (collections (world s)))
    as [points|] eqn:Hlook.
  - rewrite (ensure_existing _ _ _ Hfault Hlook). cbn [snd noted world].
    split; [exact Hfault|]. split; [|reflexivity].
    exists points. split; [exact Hlook | now left].
  - destruct (create_fault s) as [d|] eqn:Hcreate.
    { rewrite (ensure_create_fault _ _ _ Hfault Hcreate Hlook) in Hok.
      discriminate Hok. }
    rewrite (ensure_creates _ _ Hfault Hcreate Hlook).
    cbn [snd noted created world collections index_fault vector_configs].
    split; [exact Hfault|]. split.
    + exists []. split; [now apply lookup_app_new|]. right.
      split; [reflexivity|]. split; [reflexivity|].
      apply in_or_app. right. now left.
    + intros other Hother. now apply lookup_app_other.
Qed.

(** When [_ensure_collection_exists] raises, it raises the failure of the
    index, after printing its description, and the world is as it was:
    nothing was created. *)
Theorem ensure_collection_exists_raises
    (self : VectorStore) (s : Process float) (e : exn) :
  fst (_ensure_collection_exists self s) = inl e ->
  let s' := snd (_ensure_collection_exists self s) in
  (exists d, e = IndexFailure d) /\
  world s' = world s /\
  vector_configs s' = vector_configs s /\
  notices s' = notices s ++ [CollectionError (describe e)].
Proof.
  intros Hfail s'. subst s'.
  destruct (index_fault (world s)) as [d|] eqn:Hfault.
  { rewrite (ensure_index_fault _ _ _ Hfault) in *. cbn [fst snd] in *.
    injection Hfail as <-. split; [now exists d | now repeat split]. }
  destruct (lookup_collection (collection_name self) (collections (world s)))
    as [points|] eqn:Hlook.
  { rewrite (ensure_existing _ _ _ Hfault Hlook) in Hfail. discriminate Hfail. }
  destruct (create_fault s) as [d|] eqn:Hcreate.
  - rewrite (ensure_create_fault _ _ _ Hfault Hcreate Hlook) in *.
    cbn [fst snd] in *. injection Hfail as <-.
    split; [now exists d | now repeat split].
  - rewrite (ensure_creates _ _ Hfault Hcreate Hlook) in Hfail.
    discriminate Hfail.
Qed.

(** Running [_ensure_collection_exists] again after it returned changes
    nothing in the world: the second run finds the collection and returns
    after reporting its number of points. *)
Theorem ensure_collection_exists_twice
    (self : VectorStore) (s : Process float) :
  fst (_ensure_collection_exists self s) = inr tt ->
  let s1 := snd (_ensure_collection_exists self s) in
  exists points,
    lookup_collection (collection_name self) (collections (world s1))
      = Some points /\
    _ensure_collection_exists self s1
    = (inr tt,
       noted s1 (CollectionLoaded (collection_name self)
                   (Z.of_nat (length points)))).
Proof.
  intros Hok s1. subst s1.
  destruct (index_fault (world s)) as [d|] eqn:Hfault.
  { rewrite (ensure_index_fault _ _ _ Hfault) in Hok. discriminate Hok. }
  destruct (lookup_collection (collection_name self) (collections (world s)))
    as [points|] eqn:Hlook.
  - rewrite (ensure_existing _ _ _ Hfault Hlook). cbn [snd].
    exists points. split; [exact Hlook|].
    now apply ensure_existing.
  - destruct (create_fault s) as [d|] eqn:Hcreate.
    { rewrite (ensure_create_fault _ _ _ Hfault Hcreate Hlook) in Hok.
      discriminate Hok. }
    rewrite (ensure_creates _ _ Hfault Hcreate Hlook). cbn [snd].
    exists [].
    assert (lookup_collection (collection_name self)
              (collections
                 (world (noted (created s (collection_name self)
                                  (mkParams (vector_size self) COSINE))
                           (CollectionCreated (collection_name self)))))
            = Some []) as Hnew
      by (cbn [noted created world collections]; now apply lookup_app_new).
    split; [exact Hnew|]. now apply ensure_existing.
Qed.

End LifecycleProperties.

Lemma ensure_collection_exists_returns_witness :
  lookup_collection (lit "rag_collection")
    (collections
       (world (snd (_ensure_collection_exists sample_store
                      (sound_process empty_index_world)))))
  = Some [].
Proof.
  destruct (ensure_collection_exists_returns sample_store
              (sound_process empty_index_world))
    as (_ & (points & H & [[Hold _] | (_ & -> & _)]) & _).
  - reflexivity.
  - discriminate Hold.
  - exact H.
Defined.

Lemma ensure_collection_exists_raises_witness :
  world (snd (_ensure_collection_exists sample_store
                (sound_process unreachable_world)))
  = unreachable_world.
Proof.
  apply (ensure_collection_exists_raises sample_store
           (sound_process unreachable_world)
           (IndexFailure (lit "storage is locked"))).
  reflexivity.
Defined.

Lemma ensure_collection_exists_twice_witness :
  exists points : list (PointStruct Z),
    _ensure_collection_exists sample_store
      (snd (_ensure_collection_exists sample_store
              (sound_process empty_index_world)))
    = (inr tt,
       noted (snd (_ensure_collection_exists sample_store
                     (sound_process empty_index_world)))
             (CollectionLoaded (lit "rag_collection")
                (Z.of_nat (length points)))).
Proof.
  destruct (ensure_collection_exists_twice sample_store
              (sound_process empty_index_world)) as (points & _ & H).
  - reflexivity.
  - exists points. exact H.
Defined.

Section InitProperties.

Context {float : Type}.

Lemma ensure_success_state (self : VectorStore) (s : Process float) :
  fst (_ensure_collection_exists self s) = inr tt ->
  index_fault (world (snd (_ensure_collection_exists self s))) = None /\
  exists points,
    lookup_collection (collection_name self)
      (collections (world (snd (_ensure_collection_exists self s))))
    = Some points.
Proof.
  intros Hok.
  destruct (index_fault (world s)) as [d|] eqn:Hfault.
  { rewrite (ensure_index_fault _ _ _ Hfault) in Hok. discriminate Hok. }
  destruct (lookup_collection (collection_name self) (collections (world s)))
    as [points|] eqn:Hlook.
  - rewrite (ensure_existing _ _ _ Hfault Hlook). cbn [snd noted world].
    split; [exact Hfault | now exists points].
  - destruct (create_fault s) as [d|] eqn:Hcreate.
    { rewrite (ensure_create_fault _ _ _ Hfault Hcreate Hlook) in Hok.
      discriminate Hok. }
    rewrite (ensure_creates _ _ Hfault Hcreate Hlook).
    cbn [snd noted created world collections index_fault].
    split; [exact Hfault|]. exists []. now apply lookup_app_new.
Qed.

Lemma get_collection_stats_reachable (self : VectorStore) (w : World float)
    points :
  index_fault w = None ->
  lookup_collection (collection_name self) (collections w) = Some points ->
  get_collection_stats self w
  = (inr [("name"%string, VStr (collection_name self));
          ("count"%string, VInt (Z.of_nat (length points)));
          ("persist_directory"%string, VStr (persist_directory self));
          ("vector_size"%string, VInt (vector_size self))], w).
Proof.
  intros Hfault Hlook.
  unfold get_collection_stats, try_except, bind, get_collection_points_count.
  now rewrite Hfault, Hlook.
Qed.

Lemma init_run name persist_dir (s : Process float) :
  __init__ name persist_dir s =
  match connect_fault s, openai_fault s with
  | Some d, _ => (inl (IndexFailure d), s)
  | None, Some d => (inl (ProviderFailure d), s)
  | None, None =>
      match _ensure_collection_exists (mkStore name persist_dir 1536) s with
      | (inl e, s') => (inl e, s')
      | (inr _, s') => (inr (mkStore name persist_dir 1536), s')
      end
  end.
Proof.
  unfold __init__, pbind, connect, make_openai_client, pret.
  destruct (connect_fault s); [reflexivity|].
  destruct (openai_fault s); reflexivity.
Qed.

(** When the constructor returns, the store has the given collection
    name and storage location and the vector size [1536], its collection
    exists in the index, and [get_collection_stats] on it reports the
    number of points of that collection, the vector size [1536] and no
    error. *)
Theorem init_returns_usable_store
    (name persist_dir : str) (s : Process float) (self : VectorStore) :
  fst (__init__ name persist_dir s) = inr self ->
  let s' := snd (__init__ name persist_dir s) in
  self = mkStore name persist_dir 1536 /\
  exists points stats,
    lookup_collection name (collections (world s')) = Some points /\
    get_collection_stats self (world s') = (inr stats, world s') /\
    dict_get stats "count" = Some (VInt (Z.of_nat (length points))) /\
    dict_get stats "vector_size" = Some (VInt 1536) /\
    dict_get stats "error" = None.
Proof.
  intros Hok s'. subst s'. rewrite init_run in *.
  destruct (connect_fault s); [discriminate Hok|].
  destruct (openai_fault s); [discriminate Hok|].
  pose proof (ensure_success_state (mkStore name persist_dir 1536) s) as H.
  destruct (_ensure_collection_exists (mkStore name persist_dir 1536) s)
    as [[e|[]] s1]; [discriminate Hok|].
  cbn [fst snd] in *. injection Hok as <-.
  destruct (H eq_refl) as (Hfault & points & Hlook).
  split; [reflexivity|]. exists points. eexists.
  split; [exact Hlook|]. split.
  - exact (get_collection_stats_reachable _ _ points Hfault Hlook).
  - now repeat split.
Qed.

(** ** Release: [close], [__exit__] and the [with] statement *)

Lemma close_run (has_client : bool) (s : Process float) :
  close has_client s =
  if has_client
  then (inr tt,
        noted (close_counted s)
              (match close_fault s (close_calls s) with
               | None => ConnectionClosed
               | Some d => CloseFailed d
               end))
  else (inr tt, s).
Proof.
  unfold close. destruct has_client; [|reflexivity].
  unfold ptry, pbind, client_close.
  destruct (close_fault s (close_calls s)); reflexivity.
Qed.

(** [close] never raises. On an object without client it does nothing;
    otherwise it calls [client.close()] once and prints one line, that
    the connection is closed or the description of the failure of that
    call. The index, the provider's log and the file system are as they
    were. *)
Theorem close_never_raises (has_client : bool) (s : Process float) :
  fst (close has_client s) = inr tt /\
  world (snd (close has_client s)) = world s /\
  (has_client = false -> snd (close has_client s) = s) /\
  (has_client = true ->
   close_calls (snd (close has_client s)) = S (close_calls s) /\
   notices (snd (close has_client s))
   = notices s ++ [match close_fault s (close_calls s) with
                   | None => ConnectionClosed
                   | Some d => CloseFailed d
                   end]).
Proof.
  rewrite close_run. destruct has_client; cbn [fst snd].
  - split; [reflexivity|]. split; [reflexivity|].
    split; [intros H; discriminate H|]. intros _. now split.
  - split; [reflexivity|]. split; [reflexivity|].
    split; [reflexivity|]. intros H. discriminate H.
Qed.

(** A [with] block on a store runs [close] exactly once after its body,
    whether the body returned or raised, and ends as the body ended: an
    exception of the body is raised again after the release, since
    [__exit__] returns [None]. *)
Theorem with_statement_closes_and_reraises
    (self : VectorStore) (has_client : bool)
    (body : VectorStore -> P float unit) (s : Process float) :
  fst (with_statement self has_client body s) = fst (body self s) /\
  snd (with_statement self has_client body s)
  = snd (close has_client (snd (body self s))).
Proof.
  unfold with_statement, __enter__, __exit__, pbind, pret.
  destruct (body self s) as [[e|[]] s1]; cbn [fst snd];
    rewrite close_run; destruct has_client; now split.
Qed.

End InitProperties.

Lemma init_returns_usable_store_witness :
  exists points stats,
    lookup_collection (lit "test_collection")
      (collections
         (world (snd (__init__ (lit "test_collection") (lit "./qdrant_db")
                        (sound_process empty_index_world)))))
      = Some points /\
    dict_get stats "count" = Some (VInt (Z.of_nat (length points))).
Proof.
  destruct (init_returns_usable_store (lit "test_collection")
              (lit "./qdrant_db") (sound_process empty_index_world)
              (mkStore (lit "test_collection") (lit "./qdrant_db") 1536))
    as (_ & points & stats & H1 & _ & H2 & _).
  - reflexivity.
  - exists points, stats. split; [exact H1 | exact H2].
Defined.

Lemma close_never_raises_witness :
  close_calls (snd (close true (sound_process empty_index_world))) = 1%nat.
Proof.
  apply (close_never_raises true (sound_process empty_index_world)).
  reflexivity.
Defined.
